(** * Mobile module runtime (torch/csrc/jit/mobile/module.cpp)

    A shallow embedding of the lite-interpreter module layer:
    [CompilationUnit], [Module] and [Method], with the instrumented call
    path of [Method::run].  Everything that module.cpp only uses through an
    interface (values, objects, functions, exceptions, the observer, the
    symbolication table) is kept as small as the calls made on it. *)

From Stdlib Require Import ZArith Ascii.
From stdpp Require Import gmap strings list fin_maps.

Open Scope string_scope.
Open Scope list_scope.

(** ** External data, as module.cpp sees it *)

(** Modelled from the spec: [c10::QualifiedName], declared outside
    module.cpp.  A dotted name kept as its atoms; [qn_name] is the last
    atom, which is what [QualifiedName::name()] hands out. *)
Definition QualifiedName : Type := list string.

Definition qn_name (q : QualifiedName) : string := List.last q "".

(** Modelled from the spec: [at::Tensor], declared outside module.cpp.
    Only identity and the gradient-tracking flag are looked at here. *)
Record Tensor : Type := mkTensor {
  tensor_id : Z;
  requires_grad : bool
}.

(** Modelled from the spec: [c10::IValue] and [c10::ivalue::Object],
    declared outside module.cpp.  A value is a tagged union; an object is
    an ordered list of named slots together with the name of its class
    type, when it has one.  Slots that hold objects make the attribute
    tree. *)
Inductive IValue : Type :=
| INone
| IBool (b : bool)
| IInt (i : Z)
| IString (s : string)
| ITensor (t : Tensor)
| IObject (o : Object)
with Object : Type :=
| mkObject (type_name : option QualifiedName) (attrs : list (string * IValue)).

Definition Stack : Type := list IValue.

Definition obj_type_name (o : Object) : option QualifiedName :=
  match o with mkObject n _ => n end.

Definition obj_attrs (o : Object) : list (string * IValue) :=
  match o with mkObject _ a => a end.

Definition isObject (v : IValue) : bool :=
  match v with IObject _ => true | _ => false end.

Definition isTensor (v : IValue) : bool :=
  match v with ITensor _ => true | _ => false end.

(** [obj->slots()] *)
Definition slots (o : Object) : list IValue := (obj_attrs o).*2.

(** The slots with their attribute names. *)
Definition slots_of (o : Object) : list (string * IValue) := obj_attrs o.

(** [obj->type()->findAttributeSlot(name)]: index of the slot of that name *)
Fixpoint find_slot (name : string) (attrs : list (string * IValue)) : option nat :=
  match attrs with
  | [] => None
  | (n, _) :: rest =>
      if String.eqb n name then Some 0 else S <$> find_slot name rest
  end.

Definition findAttributeSlot (o : Object) (name : string) : option nat :=
  find_slot name (obj_attrs o).

(** [obj->getSlot(i)] *)
Definition getSlot (o : Object) (i : nat) : option IValue :=
  snd <$> obj_attrs o !! i.

(** [obj->type()->getAttributeName(i)] *)
Definition getAttributeName (o : Object) (i : nat) : option string :=
  fst <$> obj_attrs o !! i.

Definition set_slot_value (i : nat) (v : IValue)
    (attrs : list (string * IValue)) : list (string * IValue) :=
  alter (fun '(n, _) => (n, v)) i attrs.

(** [obj->setSlot(i, v)] *)
Definition setSlot (o : Object) (i : nat) (v : IValue) : Object :=
  mkObject (obj_type_name o) (set_slot_value i v (obj_attrs o)).

(** Exceptions thrown by the execution layer.  [BackendRuntime] is
    [c10::BackendRuntimeException], which derives from [c10::Error];
    [GenericError] is any other [c10::Error]; [OtherException] is an
    exception outside that hierarchy, which no handler of [Method::run]
    catches. *)
Inductive ExceptionKind : Type :=
| BackendRuntime
| GenericError
| OtherException.

(** Modelled from the spec: [c10::Error] and
    [c10::BackendRuntimeException], declared outside module.cpp: a
    message, an appendable context and, for backend errors, an accumulable
    list of debug handles. *)
Record Exception : Type := mkException {
  exn_kind : ExceptionKind;
  exn_msg : string;
  exn_context : list string;
  exn_handles : list Z
}.

(** [e.add_context(s)] *)
Definition add_context (e : Exception) (s : string) : Exception :=
  mkException (exn_kind e) (exn_msg e) (exn_context e ++ [s]) (exn_handles e).

(** [e.pushDebugHandle(h)] *)
Definition pushDebugHandle (e : Exception) (h : Z) : Exception :=
  mkException (exn_kind e) (exn_msg e) (exn_context e) (exn_handles e ++ [h]).

(** [e.getDebugHandles()] *)
Definition getDebugHandles (e : Exception) : list Z := exn_handles e.

(** How a call ends: it returns, it throws an exception that a caller can
    catch, or it fails an internal assertion.

    Modelled from the spec: [TORCH_INTERNAL_ASSERT], defined outside
    module.cpp.  A failed assertion is an invariant violation, fatal and
    not a recoverable error, so it is an outcome of its own and not an
    [Exception]. *)
Inductive Outcome (A : Type) : Type :=
| Returns (a : A)
| Throws (e : Exception)
| AssertFail (msg : string).

Arguments Returns {A} a.
Arguments Throws {A} e.
Arguments AssertFail {A} msg.

(** How [Function::run] ends: it returns, or it raises. *)
Inductive ExecResult : Type :=
| Completed
| Raised (e : Exception).

(** Modelled from the spec: [mobile::Function], declared outside
    module.cpp.  [fn_run] is [Function::run]: it works on the stack in
    place, so it hands back the stack it leaves behind both when it
    returns and when it raises. *)
Record Function : Type := mkFunction {
  fn_name : string;
  fn_qualname : QualifiedName;
  fn_run : Stack -> ExecResult * Stack;
  getExceptionDebugHandle : Z;
  fn_get_debug_handle : nat -> Z
}.

(** ** CompilationUnit *)

Record CompilationUnit : Type := mkCompilationUnit {
  methods_ : list Function
}.

Definition empty_cu : CompilationUnit := mkCompilationUnit [].

Definition register_function (cu : CompilationUnit) (fn : Function)
    : CompilationUnit :=
  mkCompilationUnit (methods_ cu ++ [fn]).

Definition qn_eqb (a b : QualifiedName) : bool := bool_decide (a = b).

Fixpoint find_function_in (fns : list Function) (qn : QualifiedName)
    : option Function :=
  match fns with
  | [] => None
  | fn :: rest =>
      if qn_eqb (fn_qualname fn) qn then Some fn else find_function_in rest qn
  end.

Definition find_function (cu : CompilationUnit) (qn : QualifiedName)
    : option Function :=
  find_function_in (methods_ cu) qn.

(** A call against the unit, for stating what a history of calls does. *)
Inductive cu_call : Type :=
| CallRegister (fn : Function)
| CallFind (qn : QualifiedName).

(** One call: the unit afterwards and, for a lookup, what it returned. *)
Definition cu_step (cu : CompilationUnit) (c : cu_call)
    : CompilationUnit * option (option Function) :=
  match c with
  | CallRegister fn => (register_function cu fn, None)
  | CallFind qn => (cu, Some (find_function cu qn))
  end.

Definition cu_run (cu : CompilationUnit) (calls : list cu_call)
    : CompilationUnit :=
  foldl (fun cu c => fst (cu_step cu c)) cu calls.

(** The functions handed to [register_function] in a history, in order. *)
Fixpoint registered (calls : list cu_call) : list Function :=
  match calls with
  | [] => []
  | CallRegister fn :: rest => fn :: registered rest
  | CallFind _ :: rest => registered rest
  end.

(** ** Outcomes as a monad *)

Definition obind {A B : Type} (m : Outcome A) (f : A -> Outcome B) : Outcome B :=
  match m with
  | Returns a => f a
  | Throws e => Throws e
  | AssertFail msg => AssertFail msg
  end.

Definition omap {A B : Type} (f : A -> B) (m : Outcome A) : Outcome B :=
  obind m (fun a => Returns (f a)).

Notation "'do' x <- m 'in' k" := (obind m (fun x => k))
  (at level 10, x name, m at level 100, k at level 200).

(** [IValue::toBool()], which asserts on the tag *)
Definition toBool (v : IValue) : Outcome bool :=
  match v with
  | IBool b => Returns b
  | _ => AssertFail "Expected Bool"
  end.

(** Modelled from the spec: [c10::optional], declared outside module.cpp.
    [opt->member] on an empty optional does not yield a value: the call
    that does it fails. *)
Definition optional_arrow {A : Type} (o : option A) : Outcome A :=
  match o with
  | Some a => Returns a
  | None => AssertFail "dereference of an empty optional"
  end.

(** ** Module and Method *)

(** Modelled from the spec: [MobileDebugTable], declared outside
    module.cpp: the symbolication table, looked up with one handle or with
    a list of handles and the top-level type name. *)
Record MobileDebugTable : Type := mkDebugTable {
  getSourceDebugString : Z -> string -> string;
  getSourceDebugStrings : list Z -> string -> string;
  getModuleHierarchyInfo : Z -> string -> string
}.

Record Module : Type := mkModule {
  object_ : Object;
  metadata_ : gmap string string;
  cu_ : CompilationUnit;
  debug_table_ : MobileDebugTable
}.

Definition _ivalue (m : Module) : Object := object_ m.
Definition getMetadata (m : Module) : gmap string string := metadata_ m.
Definition getDebugTable (m : Module) : MobileDebugTable := debug_table_ m.

Record Method : Type := mkMethod {
  owner_ : Module;
  function_ : Function
}.

Fixpoint find_method_in (m : Module) (fns : list Function) (basename : string)
    : option Method :=
  match fns with
  | [] => None
  | fn :: rest =>
      if String.eqb (fn_name fn) basename then Some (mkMethod m fn)
      else find_method_in m rest basename
  end.

Definition find_method (m : Module) (basename : string) : option Method :=
  find_method_in m (methods_ (cu_ m)) basename.

Definition get_method (m : Module) (name : string) : Outcome Method :=
  match find_method m name with
  | Some method => Returns method
  | None =>
      Throws (mkException GenericError
                ("Method '" +:+ name +:+ "' is not defined.") [] [])
  end.

Definition get_methods (m : Module) : list Method :=
  mkMethod m <$> methods_ (cu_ m).

(** [Method::get_debug_handle(pc)] *)
Definition get_debug_handle (me : Method) (pc : nat) : Z :=
  fn_get_debug_handle (function_ me) pc.

(** ** Walks over the attribute tree *)

(** [set_train_recurse].  The source writes the "training" slot and then
    walks [obj->slots()]; the walk below goes through the slots by index
    and reads slot [slot] as the boolean that was just written, which is
    what [setSlot] left there ([set_train_recurse_unfold] states the
    function in the source's own order). *)
Fixpoint set_train_recurse (obj : Object) (on : bool) {struct obj}
    : Outcome Object :=
  match obj with
  | mkObject ty attrs =>
      match find_slot "training" attrs with
      | Some slot =>
          let fix walk (i : nat) (l : list (string * IValue)) {struct l}
              : Outcome (list (string * IValue)) :=
            match l with
            | [] => Returns []
            | (n, v) :: rest =>
                if Nat.eqb i slot then
                  omap (cons (n, IBool on)) (walk (S i) rest)
                else
                  match v with
                  | IObject o =>
                      do o' <- set_train_recurse o on in
                      omap (cons (n, IObject o')) (walk (S i) rest)
                  | _ => omap (cons (n, v)) (walk (S i) rest)
                  end
            end in
          omap (mkObject ty) (walk 0 attrs)
      | None => AssertFail "'training' attribute not found"
      end
  end.

(** The loop of [set_train_recurse] over the slots of an object whose
    "training" slot has been written. *)
Fixpoint set_train_slots (on : bool) (l : list (string * IValue))
    : Outcome (list (string * IValue)) :=
  match l with
  | [] => Returns []
  | (n, v) :: rest =>
      match v with
      | IObject o =>
          do o' <- set_train_recurse o on in
          omap (cons (n, IObject o')) (set_train_slots on rest)
      | _ => omap (cons (n, v)) (set_train_slots on rest)
      end
  end.

(** [slot_params_recurse] *)
Fixpoint slot_params_recurse (obj : Object) (params : list Tensor)
    {struct obj} : list Tensor :=
  match obj with
  | mkObject _ attrs =>
      (fix walk (l : list (string * IValue)) (params : list Tensor)
           {struct l} : list Tensor :=
         match l with
         | [] => params
         | (_, slot) :: rest =>
             match slot with
             | ITensor t => walk rest (params ++ [t])
             | IObject o => walk rest (slot_params_recurse o params)
             | _ => walk rest params
             end
         end) attrs params
  end.

(** The name of a slot under [parent_name], as [slot_named_params_recurse]
    builds it. *)
Definition slot_name (parent_name attr : string) : string :=
  (if Nat.eqb (String.length parent_name) 0 then parent_name
   else parent_name +:+ ".") +:+ attr.

(** [slot_named_params_recurse] *)
Fixpoint slot_named_params_recurse (obj : Object)
    (params : gmap string Tensor) (parent_name : string) {struct obj}
    : gmap string Tensor :=
  match obj with
  | mkObject _ attrs =>
      (fix walk (l : list (string * IValue)) (params : gmap string Tensor)
           {struct l} : gmap string Tensor :=
         match l with
         | [] => params
         | (attr, slot) :: rest =>
             let name := slot_name parent_name attr in
             match slot with
             | ITensor t =>
                 if requires_grad t then walk rest (<[name := t]> params)
                 else walk rest params
             | IObject o =>
                 walk rest (slot_named_params_recurse o params name)
             | _ => walk rest params
             end
         end) attrs params
  end.

(** [getTopModuleTypeName] *)
Definition getTopModuleTypeName (m : Module) : string :=
  match obj_type_name (_ivalue m) with
  | Some qn => qn_name qn
  | None => ""
  end.

Definition parameters (m : Module) : list Tensor :=
  slot_params_recurse (object_ m) [].

Definition named_parameters (m : Module) : gmap string Tensor :=
  slot_named_params_recurse (object_ m) ∅ "".

(** [Module::train]: the module afterwards, or the failed assertion *)
Definition train (m : Module) (on : bool) : Outcome Module :=
  omap (fun o => mkModule o (metadata_ m) (cu_ m) (debug_table_ m))
       (set_train_recurse (object_ m) on).

Definition is_training (m : Module) : Outcome bool :=
  match findAttributeSlot (object_ m) "training" with
  | Some slot => do v <- optional_arrow (getSlot (object_ m) slot) in toBool v
  | None => Returns true
  end.

(** ** The world around a call *)

(** [MobileDebugInfo]: what [Method::run] puts in the thread-local debug
    context. *)
Record MobileDebugInfo : Type := mkDebugInfo {
  model_name : string;
  method_name : string
}.

(** What can be seen of a call from outside, in the order it happens. *)
Inductive Event : Type :=
| onEnterRunMethod (metadata : gmap string string) (instance_key : Z)
    (name : string)
| onExitRunMethod (instance_key : Z)
| onFailRunMethod (instance_key : Z) (msg : string)
| DebugInfoInstalled (info : MobileDebugInfo)
| DebugInfoReleased
| Symbolicated (handles : list Z)
| FunctionRun (name : string) (stack : Stack).

(** Process state that [Method::run] reads and writes: whether
    [observerConfig().getModuleObserver()] is set, the state of
    [std::rand], the thread-local debug-info stack, and the trace of
    events so far (oldest first). *)
Record World : Type := mkWorld {
  module_observer : bool;
  rand_source : nat -> Z;
  rand_calls : nat;
  debug_info_stack : list MobileDebugInfo;
  trace : list Event
}.

Definition emit (ev : Event) (w : World) : World :=
  mkWorld (module_observer w) (rand_source w) (rand_calls w)
          (debug_info_stack w) (trace w ++ [ev]).

(** [std::rand()] *)
Definition std_rand (w : World) : Z * World :=
  (rand_source w (rand_calls w),
   mkWorld (module_observer w) (rand_source w) (S (rand_calls w))
           (debug_info_stack w) (trace w)).

(** Constructor of [at::DebugInfoGuard] *)
Definition DebugInfoGuard_enter (info : MobileDebugInfo) (w : World) : World :=
  emit (DebugInfoInstalled info)
    (mkWorld (module_observer w) (rand_source w) (rand_calls w)
             (info :: debug_info_stack w) (trace w)).

(** Destructor of [at::DebugInfoGuard] *)
Definition DebugInfoGuard_leave (w : World) : World :=
  emit DebugInfoReleased
    (mkWorld (module_observer w) (rand_source w) (rand_calls w)
             (tail (debug_info_stack w)) (trace w)).

Definition newline : string := String (Ascii.ascii_of_nat 10) EmptyString.

(** Modelled from the spec: [c10::Error::what()], declared outside
    module.cpp: the message followed by the context attached so far. *)
Definition what (e : Exception) : string :=
  foldl (fun acc c => acc +:+ newline +:+ c) (exn_msg e) (exn_context e).

Definition string_empty (s : string) : bool := Nat.eqb (String.length s) 0.

Section Build.

(** Whether the build defines [SYMBOLICATE_MOBILE_DEBUG_HANDLE]. *)
Variable SYMBOLICATE_MOBILE_DEBUG_HANDLE : bool.

Definition getModuleHierarchy (m : Module) (debug_handle : Z) : string :=
  if SYMBOLICATE_MOBILE_DEBUG_HANDLE then
    getModuleHierarchyInfo (getDebugTable m) debug_handle (getTopModuleTypeName m)
  else "".

Definition getCallStack (m : Module) (debug_handle : Z) : string :=
  if SYMBOLICATE_MOBILE_DEBUG_HANDLE then
    getSourceDebugString (getDebugTable m) debug_handle (getTopModuleTypeName m)
  else "".

Definition get_forward_method_debug_info (m : Module) (pc : nat)
    : Outcome string :=
  do forward <- optional_arrow (find_method m "forward") in
  let debug_handle := get_debug_handle forward pc in
  Returns (if SYMBOLICATE_MOBILE_DEBUG_HANDLE then
             getModuleHierarchyInfo (getDebugTable m) debug_handle
               (getTopModuleTypeName m)
           else "").

(** The body of [failure_guard] in [Method::run], run when the scope is
    left without [release()]. *)
Definition failure_guard (me : Method) (observer : bool) (instance_key : Z)
    (error_message : string) (w : World) : World :=
  if negb observer then w
  else
    let '(error_message, w) :=
      if SYMBOLICATE_MOBILE_DEBUG_HANDLE && string_empty error_message then
        (getSourceDebugString (getDebugTable (owner_ me))
           (getExceptionDebugHandle (function_ me))
           (getTopModuleTypeName (owner_ me)),
         emit (Symbolicated [getExceptionDebugHandle (function_ me)]) w)
      else (error_message, w) in
    emit (onFailRunMethod instance_key
            (if string_empty error_message then "Unknown exception"
             else error_message)) w.

(** The handler for [c10::BackendRuntimeException]: the exception as it is
    rethrown, and the world. *)
Definition catch_backend (me : Method) (e : Exception) (w : World)
    : Exception * World :=
  if SYMBOLICATE_MOBILE_DEBUG_HANDLE then
    let e := pushDebugHandle e (getExceptionDebugHandle (function_ me)) in
    let debug_string :=
      getSourceDebugStrings (getDebugTable (owner_ me)) (getDebugHandles e)
        (getTopModuleTypeName (owner_ me)) in
    (add_context e debug_string, emit (Symbolicated (getDebugHandles e)) w)
  else (e, w).

(** The handler for [c10::Error] *)
Definition catch_error (me : Method) (error : Exception) (w : World)
    : Exception * World :=
  if SYMBOLICATE_MOBILE_DEBUG_HANDLE then
    let debug_string :=
      getSourceDebugString (getDebugTable (owner_ me))
        (getExceptionDebugHandle (function_ me))
        (getTopModuleTypeName (owner_ me)) in
    (add_context error debug_string,
     emit (Symbolicated [getExceptionDebugHandle (function_ me)]) w)
  else (error, w).

(** [Method::run].  The caller's stack is passed by reference, so the stack
    it is left with comes back whichever way the call ends.

    Modelled from the spec: [TORCH_RETHROW], defined outside module.cpp,
    re-raises the exception object it is given. *)
Definition run (me : Method) (stack : Stack) (w : World)
    : Outcome unit * Stack * World :=
  let observer := module_observer w in
  let '(instance_key, w) := std_rand w in
  let copied_metadata := getMetadata (owner_ me) in
  let w :=
    if observer then
      emit (onEnterRunMethod copied_metadata instance_key
              (fn_name (function_ me))) w
    else w in
  let name := default "" (copied_metadata !! "model_name") in
  let debug_info := mkDebugInfo name (fn_name (function_ me)) in
  let w := DebugInfoGuard_enter debug_info w in
  (* try *)
  let stack := IObject (_ivalue (owner_ me)) :: stack in
  let w := emit (FunctionRun (fn_name (function_ me)) stack) w in
  let '(r, stack) := fn_run (function_ me) stack in
  match r with
  | Completed =>
      let w := if observer then emit (onExitRunMethod instance_key) w else w in
      (* failure_guard.release(); then the guards go out of scope *)
      (Returns tt, stack, DebugInfoGuard_leave w)
  | Raised e =>
      match exn_kind e with
      | BackendRuntime =>
          let '(e, w) := catch_backend me e w in
          let error_message := what e in
          let w := failure_guard me observer instance_key error_message w in
          (Throws e, stack, DebugInfoGuard_leave w)
      | GenericError =>
          let '(error, w) := catch_error me e w in
          let error_message := what error in
          let w := failure_guard me observer instance_key error_message w in
          (Throws error, stack, DebugInfoGuard_leave w)
      | OtherException =>
          let w := failure_guard me observer instance_key "" w in
          (Throws e, stack, DebugInfoGuard_leave w)
      end
  end.

(** [Method::operator()] *)
Definition operator_call (me : Method) (stack : Stack) (w : World)
    : Outcome IValue * World :=
  let '(r, stack, w) := run me stack w in
  match r with
  | Returns _ =>
      match stack with
      | [] => (AssertFail "!stack.empty()", w)
      | front :: _ => (Returns front, w)
      end
  | Throws e => (Throws e, w)
  | AssertFail msg => (AssertFail msg, w)
  end.

End Build.

(** ** Vocabulary for stating the properties *)

(** *** Traces *)

Definition is_enter (ev : Event) : bool :=
  match ev with onEnterRunMethod _ _ _ => true | _ => false end.
Definition is_exit (ev : Event) : bool :=
  match ev with onExitRunMethod _ => true | _ => false end.
Definition is_fail (ev : Event) : bool :=
  match ev with onFailRunMethod _ _ => true | _ => false end.
Definition is_installed (ev : Event) : bool :=
  match ev with DebugInfoInstalled _ => true | _ => false end.
Definition is_released (ev : Event) : bool :=
  match ev with DebugInfoReleased => true | _ => false end.
Definition is_execution (ev : Event) : bool :=
  match ev with FunctionRun _ _ => true | _ => false end.

Fixpoint count_events (P : Event -> bool) (evs : list Event) : nat :=
  match evs with
  | [] => 0
  | ev :: rest => (if P ev then 1 else 0) + count_events P rest
  end.

(** Index of the first event that satisfies [P]. *)
Fixpoint position (P : Event -> bool) (evs : list Event) : option nat :=
  match evs with
  | [] => None
  | ev :: rest => if P ev then Some 0 else S <$> position P rest
  end.

(** The first [P] comes before the first [Q]. *)
Definition precedes (P Q : Event -> bool) (evs : list Event) : Prop :=
  exists i j, position P evs = Some i /\ position Q evs = Some j /\ i < j.

(** The events one call of [Method::run] adds to the trace. *)
Definition run_events (sym : bool) (me : Method) (stack : Stack) (w : World)
    : list Event :=
  drop (length (trace w)) (trace (run sym me stack w).2).

Definition exactly_one_of_exit_fail (evs : list Event) : Prop :=
  count_events is_exit evs + count_events is_fail evs = 1.

(** The root object as [Method::run] puts it on the stack. *)
Definition self_of (me : Method) : IValue := IObject (_ivalue (owner_ me)).

(** The debug-info record [Method::run] builds. *)
Definition debug_info_of (me : Method) : MobileDebugInfo :=
  mkDebugInfo (default "" (getMetadata (owner_ me) !! "model_name"))
              (fn_name (function_ me)).

(** What the spec says a backend-runtime exception looks like when it
    leaves [Method::run]: this function's handle pushed, and the
    symbolication of all handles attached. *)
Definition backend_annotated (me : Method) (e : Exception) : Exception :=
  add_context
    (pushDebugHandle e (getExceptionDebugHandle (function_ me)))
    (getSourceDebugStrings (getDebugTable (owner_ me))
       (exn_handles e ++ [getExceptionDebugHandle (function_ me)])
       (getTopModuleTypeName (owner_ me))).

(** The same for a generic framework error: the symbolication of this
    function's single handle attached. *)
Definition error_annotated (me : Method) (e : Exception) : Exception :=
  add_context e
    (getSourceDebugString (getDebugTable (owner_ me))
       (getExceptionDebugHandle (function_ me))
       (getTopModuleTypeName (owner_ me))).

(** *** Attribute trees *)

(** Every object of the tree under [obj], depth first, [obj] included. *)
Fixpoint nodes (obj : Object) : list Object :=
  match obj with
  | mkObject _ attrs =>
      obj :: flat_map (fun p => match p.2 with
                                | IObject o => nodes o
                                | _ => []
                                end) attrs
  end.

Definition slot_nodes (l : list (string * IValue)) : list Object :=
  flat_map (fun p => match p.2 with IObject o => nodes o | _ => [] end) l.

(** Slot by slot, with the index of each slot. *)
Fixpoint iwalk {A : Type} (f : nat -> IValue -> list A) (i : nat)
    (l : list (string * IValue)) : list A :=
  match l with
  | [] => []
  | (_, v) :: rest => f i v ++ iwalk f (S i) rest
  end.

(** The objects [set_train_recurse] calls itself on, in order: the object,
    and, when it has a "training" slot, what is visited under the slots
    that hold objects once that slot has been overwritten. *)
Fixpoint visited (obj : Object) : list Object :=
  match obj with
  | mkObject _ attrs =>
      match find_slot "training" attrs with
      | Some slot =>
          obj :: iwalk (fun i v => if Nat.eqb i slot then []
                                   else match v with
                                        | IObject o => visited o
                                        | _ => []
                                        end) 0 attrs
      | None => [obj]
      end
  end.

Definition visited_slots (slot i : nat) (l : list (string * IValue))
    : list Object :=
  iwalk (fun i v => if Nat.eqb i slot then []
                    else match v with IObject o => visited o | _ => [] end)
        i l.

(** The value in the "training" slot of an object, if it has one. *)
Definition training_slot (obj : Object) : option IValue :=
  match findAttributeSlot obj "training" with
  | Some slot => getSlot obj slot
  | None => None
  end.

Definition has_training (obj : Object) : Prop :=
  findAttributeSlot obj "training" <> None.

Definition lacks_training (obj : Object) : Prop :=
  findAttributeSlot obj "training" = None.

(** The slot walk of [set_train_recurse], on its own. *)
Fixpoint set_train_walk (on : bool) (slot i : nat)
    (l : list (string * IValue)) : Outcome (list (string * IValue)) :=
  match l with
  | [] => Returns []
  | (n, v) :: rest =>
      if Nat.eqb i slot then
        omap (cons (n, IBool on)) (set_train_walk on slot (S i) rest)
      else
        match v with
        | IObject o =>
            do o' <- set_train_recurse o on in
            omap (cons (n, IObject o')) (set_train_walk on slot (S i) rest)
        | _ => omap (cons (n, v)) (set_train_walk on slot (S i) rest)
        end
  end.

(** [obj] has [on] in its "training" slot. *)
Definition training_is (on : bool) (obj : Object) : Prop :=
  training_slot obj = Some (IBool on).

(** [set_train_recurse] turns [obj] into [obj']. *)
Definition trained_as (on : bool) (obj obj' : Object) : Prop :=
  set_train_recurse obj on = Returns obj'.

Definition training_missing : string := "'training' attribute not found".

(** What [set_train_recurse] does on one tree: when every object it visits
    has the attribute it returns a tree in which every object has [on] in
    that slot, made of the visited objects in the same order; when one of
    them lacks it, the assertion fails. *)
Definition train_ok (on : bool) (obj : Object) : Prop :=
  (Forall has_training (visited obj) ->
   exists obj',
     set_train_recurse obj on = Returns obj' /\
     Forall (training_is on) (nodes obj') /\
     Forall2 (trained_as on) (visited obj) (nodes obj')) /\
  (Exists lacks_training (visited obj) ->
   set_train_recurse obj on = AssertFail training_missing).

(** *** Named parameters *)

(** The gradient-tracking tensor slots of the tree, depth first, each with
    the attribute names that lead to it from the root. *)
Fixpoint grad_paths (obj : Object) : list (list string * Tensor) :=
  match obj with
  | mkObject _ attrs =>
      flat_map (fun p => match p.2 with
                         | ITensor t =>
                             if requires_grad t then [([p.1], t)] else []
                         | IObject o =>
                             map (fun q => (p.1 :: q.1, q.2)) (grad_paths o)
                         | _ => []
                         end) attrs
  end.

Definition slot_grad_paths (p : string * IValue) : list (list string * Tensor) :=
  match p.2 with
  | ITensor t => if requires_grad t then [([p.1], t)] else []
  | IObject o => map (fun q => (p.1 :: q.1, q.2)) (grad_paths o)
  | _ => []
  end.

(** The dotted name of a path: [parent.child.leaf]. *)
Definition dotted (path : list string) : string := String.concat "." path.

(** The name [slot_named_params_recurse] reaches along a path that starts
    under [parent_name]. *)
Definition name_under (parent_name : string) (path : list string) : string :=
  foldl slot_name parent_name path.

(** What follows the first atom of a dotted name. *)
Definition sep_tail (path : list string) : string :=
  match path with
  | [] => ""
  | _ => "." +:+ dotted path
  end.

(** Empty, or beginning with the separator. *)
Definition starts_sep (s : string) : Prop :=
  s = "" \/ exists s', s = String "."%char s'.

(** The step of [slot_named_params_recurse] for one collected slot. *)
Definition insert_named (parent_name : string) (params : gmap string Tensor)
    (q : list string * Tensor) : gmap string Tensor :=
  <[name_under parent_name q.1 := q.2]> params.

Fixpoint dot_free (s : string) : bool :=
  match s with
  | EmptyString => true
  | String c rest => negb (Ascii.eqb c "."%char) && dot_free rest
  end.

(** An attribute name as class types have them: not empty, no dot. *)
Definition plain_name (s : string) : Prop := s <> "" /\ dot_free s = true.

(** The attribute names of one object: plain, and no name twice. *)
Definition wf_attrs (obj : Object) : Prop :=
  NoDup (obj_attrs obj).*1 /\ Forall plain_name (obj_attrs obj).*1.

Definition wf_names (obj : Object) : Prop := Forall wf_attrs (nodes obj).

(** *** Induction over attribute trees *)

(** To prove [P] of an object it is enough to prove it from [P] of the
    objects in its slots. *)
Section ObjectInduction.

Variable P : Object -> Prop.
Hypothesis step :
  forall ty attrs,
    Forall (fun p => match p.2 with IObject o => P o | _ => True end) attrs ->
    P (mkObject ty attrs).

Fixpoint Object_tree_ind (obj : Object) : P obj :=
  match obj with
  | mkObject ty attrs =>
      step ty attrs
        ((fix slots_ind (l : list (string * IValue))
            : Forall (fun p => match p.2 with IObject o => P o | _ => True end) l :=
            match l with
            | [] => List.Forall_nil _
            | p :: rest =>
                List.Forall_cons _ p rest
                  (match p as p0
                         return match p0.2 with IObject o => P o | _ => True end
                   with
                   | (_, v) =>
                       match v as v0
                             return match v0 with IObject o => P o | _ => True end
                       with
                       | IObject o => Object_tree_ind o
                       | _ => I
                       end
                   end)
                  (slots_ind rest)
            end) attrs)
  end.

End ObjectInduction.

(** *** Parameters *)

(** The tensors one slot contributes, and the tensor-valued slots of the
    tree under an object, depth first, once per occurrence. *)
Fixpoint tensor_slots (obj : Object) : list Tensor :=
  match obj with
  | mkObject _ attrs =>
      flat_map (fun p => match p.2 with
                         | ITensor t => [t]
                         | IObject o => tensor_slots o
                         | _ => []
                         end) attrs
  end.

Definition slot_tensors (p : string * IValue) : list Tensor :=
  match p.2 with
  | ITensor t => [t]
  | IObject o => tensor_slots o
  | _ => []
  end.

(** The "training" slot of the object holds a boolean. *)
Definition training_is_bool (obj : Object) : Prop :=
  exists b, training_slot obj = Some (IBool b).

(** *** Calls in sequence *)

(** The instance key an observer notification carries. *)
Definition event_key (ev : Event) : option Z :=
  match ev with
  | onEnterRunMethod _ k _ => Some k
  | onExitRunMethod k => Some k
  | onFailRunMethod k _ => Some k
  | _ => None
  end.

(** The world after a sequence of calls of [Method::run], one after the
    other, and the events they add. *)
Definition run_all (sym : bool) (calls : list (Method * Stack)) (w : World)
    : World :=
  foldl (fun w c => (run sym c.1 c.2 w).2) w calls.

Fixpoint run_all_events (sym : bool) (calls : list (Method * Stack))
    (w : World) : list Event :=
  match calls with
  | [] => []
  | c :: rest =>
      run_events sym c.1 c.2 w ++ run_all_events sym rest (run sym c.1 c.2 w).2
  end.

(** ** Sample data *)

Definition table0 : MobileDebugTable :=
  mkDebugTable (fun _ _ => "model.py:12") (fun _ _ => "model.py:12, backend.py:3")
               (fun _ _ => "top(Net)").

Definition weight : Tensor := mkTensor 1 true.
Definition buffer : Tensor := mkTensor 2 false.

Definition leaf_object : Object :=
  mkObject (Some ["__torch__"; "Leaf"])
    [("training", IBool false); ("leaf", ITensor weight)].

Definition two_level : Object :=
  mkObject (Some ["__torch__"; "Net"])
    [("training", IBool false); ("scale", ITensor buffer);
     ("child", IObject leaf_object)].

(** A tree whose sub-object lacks the "training" attribute. *)
Definition untrained_child : Object :=
  mkObject None
    [("training", IBool true);
     ("child", IObject (mkObject None [("leaf", ITensor weight)]))].

(** A root without the "training" attribute. *)
Definition bare_root : Object := mkObject None [("leaf", ITensor weight)].

Definition backend_error : Exception :=
  mkException BackendRuntime "delegate failed" [] [7%Z].

Definition plain_error : Exception :=
  mkException GenericError "shape mismatch" [] [].

(** Returns with one result on the stack. *)
Definition fn_forward : Function :=
  mkFunction "forward" ["__torch__"; "Net"; "forward"]
    (fun _ => (Completed, [IInt 42]%Z)) 11%Z (fun pc => Z.of_nat pc).

(** Returns with nothing on the stack. *)
Definition fn_void : Function :=
  mkFunction "reset" ["__torch__"; "Net"; "reset"]
    (fun _ => (Completed, [])) 12%Z (fun pc => Z.of_nat pc).

(** Raises a backend error with the stack as it found it. *)
Definition fn_delegate : Function :=
  mkFunction "delegate" ["__torch__"; "Net"; "delegate"]
    (fun s => (Raised backend_error, s)) 13%Z (fun pc => Z.of_nat pc).

(** Raises a framework error with the stack as it found it. *)
Definition fn_check : Function :=
  mkFunction "check" ["__torch__"; "Net"; "check"]
    (fun s => (Raised plain_error, s)) 14%Z (fun pc => Z.of_nat pc).

(** Moves its arguments off the stack, then raises. *)
Definition fn_consume : Function :=
  mkFunction "consume" ["__torch__"; "Net"; "consume"]
    (fun _ => (Raised plain_error, [])) 15%Z (fun pc => Z.of_nat pc).

Definition sample_cu : CompilationUnit :=
  mkCompilationUnit [fn_forward; fn_void; fn_delegate; fn_check; fn_consume].

Definition module_of (obj : Object) (cu : CompilationUnit) : Module :=
  mkModule obj {["model_name" := "net"]} cu table0.

Definition sample_module : Module := module_of two_level sample_cu.

(** A module whose unit has no "forward". *)
Definition headless_module : Module :=
  module_of two_level (mkCompilationUnit [fn_void; fn_check]).

Definition world_with (observer : bool) : World :=
  mkWorld observer (fun n => Z.of_nat (100 + n)) 0 [] [].

(** Trees whose attribute names are not plain: a name with a dot in it
    beside a nested slot of the same dotted path, an empty name above a
    tensor, and one name twice in an object. *)
Definition tensor7 : Tensor := mkTensor 7 true.
Definition tensor8 : Tensor := mkTensor 8 true.

Definition dotted_attr_tree : Object :=
  mkObject None
    [("a.b", ITensor tensor7);
     ("a", IObject (mkObject None [("b", ITensor tensor8)]))].

Definition empty_attr_tree : Object :=
  mkObject None [("", IObject (mkObject None [("x", ITensor tensor7)]))].

Definition repeated_attr_tree : Object :=
  mkObject None [("w", ITensor tensor7); ("w", ITensor tensor8)].

Definition m_forward : Method := mkMethod sample_module fn_forward.
Definition m_void : Method := mkMethod sample_module fn_void.
Definition m_delegate : Method := mkMethod sample_module fn_delegate.
Definition m_check : Method := mkMethod sample_module fn_check.
Definition m_consume : Method := mkMethod sample_module fn_consume.

(** * Properties *)

(** ** CompilationUnit: registration and lookup *)

Section CompilationUnitFacts.

Implicit Types (fns : list Function) (qn : QualifiedName) (cu : CompilationUnit).

Lemma qn_eqb_true a b : qn_eqb a b = true <-> a = b.
Proof. unfold qn_eqb. apply bool_decide_eq_true. Qed.

Lemma qn_eqb_false a b : qn_eqb a b = false <-> a <> b.
Proof. unfold qn_eqb. apply bool_decide_eq_false. Qed.

(** The scan stops at the first function of that qualified name. *)
Lemma find_function_in_Some fns qn f :
  find_function_in fns qn = Some f <->
  exists before after,
    fns = before ++ f :: after /\ fn_qualname f = qn /\
    Forall (fun g => fn_qualname g <> qn) before.
Proof.
  induction fns as [|g fns IH]; simpl.
  - split; [discriminate|].
    intros (before & after & Heq & _). destruct before; discriminate.
  - destruct (qn_eqb (fn_qualname g) qn) eqn:Hg.
    + apply qn_eqb_true in Hg. split.
      * intros [= <-]. exists [], fns. auto.
      * intros (before & after & Heq & Hf & Hnone).
        destruct before as [|g' before]; simpl in Heq.
        -- congruence.
        -- injection Heq as <- _. apply Forall_cons in Hnone as [Hne _].
           contradiction.
    + apply qn_eqb_false in Hg. rewrite IH. split.
      * intros (before & after & -> & Hf & Hnone).
        exists (g :: before), after. auto.
      * intros (before & after & Heq & Hf & Hnone).
        destruct before as [|g' before]; simpl in Heq.
        -- injection Heq as -> _. contradiction.
        -- injection Heq as <- ->. apply Forall_cons in Hnone as [_ Hnone].
           eauto.
Qed.

Lemma find_function_in_None fns qn :
  find_function_in fns qn = None <->
  Forall (fun g => fn_qualname g <> qn) fns.
Proof.
  induction fns as [|g fns IH]; simpl.
  - split; auto.
  - destruct (qn_eqb (fn_qualname g) qn) eqn:Hg.
    + apply qn_eqb_true in Hg. split; [discriminate|].
      intros [Hne _]%Forall_cons. contradiction.
    + apply qn_eqb_false in Hg. rewrite IH. split.
      * auto.
      * intros [_ ?]%Forall_cons. assumption.
Qed.

(** Lookups leave the unit alone; registrations append. *)
Lemma cu_run_methods calls cu :
  methods_ (cu_run cu calls) = methods_ cu ++ registered calls.
Proof.
  revert cu. induction calls as [|c calls IH]; intros cu.
  - simpl. by rewrite app_nil_r.
  - destruct c as [fn|qn]; unfold cu_run in *; simpl.
    + rewrite IH. simpl. by rewrite <- app_assoc.
    + apply IH.
Qed.

End CompilationUnitFacts.

(** C7.  After any history of [register_function] and [find_function]
    calls on a fresh unit, the unit holds the registered functions in
    registration order (lookups changed nothing); [find_function qn]
    returns a function exactly when it is the first one in that order whose
    qualified name is [qn], returns "not found" exactly when no registered
    function has that name, and leaves the unit as it was. *)
Theorem find_function_first_registered (calls : list cu_call) (qn : QualifiedName) :
  let cu := cu_run empty_cu calls in
  methods_ cu = registered calls /\
  (forall f,
     find_function cu qn = Some f <->
     exists before after,
       registered calls = before ++ f :: after /\ fn_qualname f = qn /\
       Forall (fun g => fn_qualname g <> qn) before) /\
  (find_function cu qn = None <->
     Forall (fun g => fn_qualname g <> qn) (registered calls)) /\
  cu_step cu (CallFind qn) = (cu, Some (find_function cu qn)).
Proof.
  intros cu.
  assert (Hm : methods_ cu = registered calls).
  { unfold cu. by rewrite cu_run_methods. }
  split; [exact Hm|].
  split; [|split].
  - intros f. unfold find_function. rewrite Hm. apply find_function_in_Some.
  - unfold find_function. rewrite Hm. apply find_function_in_None.
  - reflexivity.
Qed.

(** ** Method::run: what a call adds to the trace *)

(** Splits a call of [run] into the ways it can go: how the function ends,
    the kind of exception, the build, the observer, and whether a message
    is empty. *)
Ltac run_reduce :=
  cbv beta iota zeta delta
    [run_events run failure_guard catch_backend catch_error
     DebugInfoGuard_enter DebugInfoGuard_leave std_rand emit self_of
     getDebugHandles module_observer rand_source rand_calls debug_info_stack
     trace fst snd negb andb] in *.

Ltac run_cases sym me stack w :=
  let obs := fresh "obs" in
  destruct w as [obs ? ? ? ?];
  run_reduce;
  let e := fresh "e" in
  let s' := fresh "s'" in
  let Hrun := fresh "Hrun" in
  let Hkind := fresh "Hkind" in
  destruct (fn_run (function_ me) (IObject (_ivalue (owner_ me)) :: stack))
    as [[|e] s'] eqn:Hrun;
  [| destruct (exn_kind e) eqn:Hkind];
  destruct sym; destruct obs; run_reduce;
  repeat match goal with
         | |- context [string_empty ?s] => destruct (string_empty s); run_reduce
         end;
  rewrite <- ?app_assoc, ?drop_app_length;
  cbn [app count_events position is_enter is_exit is_fail is_installed
       is_released is_execution Nat.add fmap option_fmap option_map].

Section RunFacts.

Implicit Types (sym : bool) (me : Method) (stack : Stack) (w : World).

(** A call only ever adds to the trace. *)
Lemma run_trace_extends sym me stack w :
  trace (run sym me stack w).2 = trace w ++ run_events sym me stack w.
Proof. run_cases sym me stack w; reflexivity. Qed.

(** Without an observer nobody is told anything. *)
Lemma run_silent_without_observer sym me stack w :
  module_observer w = false ->
  let evs := run_events sym me stack w in
  count_events is_enter evs = 0 /\ count_events is_exit evs = 0 /\
  count_events is_fail evs = 0.
Proof. intros Hobs. run_cases sym me stack w; try discriminate; auto. Qed.

(** The call ends the way the function ends. *)
Lemma run_outcome sym me stack w :
  match (fn_run (function_ me) (self_of me :: stack)).1 with
  | Completed => (run sym me stack w).1.1 = Returns tt
  | Raised _ => exists e', (run sym me stack w).1.1 = Throws e'
  end.
Proof. run_cases sym me stack w; eauto. Qed.

End RunFacts.

(** C1, as amended.  When a module observer is registered, every call of
    [Method::run] tells it "enter" once, before the function is executed,
    and then exactly one of "exit" and "fail": "exit" when the function
    returns, "fail" when it raises, whatever the kind of exception. *)
Theorem run_notifies_exactly_once (sym : bool) (me : Method) (stack : Stack)
    (w : World) :
  module_observer w = true ->
  let evs := run_events sym me stack w in
  exactly_one_of_exit_fail evs /\
  count_events is_enter evs = 1 /\
  precedes is_enter is_execution evs /\
  match (fn_run (function_ me) (self_of me :: stack)).1 with
  | Completed => count_events is_exit evs = 1 /\ count_events is_fail evs = 0
  | Raised _ => count_events is_exit evs = 0 /\ count_events is_fail evs = 1
  end.
Proof.
  intros Hobs. unfold exactly_one_of_exit_fail, precedes.
  run_cases sym me stack w; try discriminate;
    (split; [reflexivity|]; split; [reflexivity|]; split;
     [exists 0, 2; simpl; repeat split; lia | split; reflexivity]).
Qed.

Lemma run_notifies_exactly_once_witness :
  module_observer (world_with true) = true /\
  exactly_one_of_exit_fail (run_events true m_delegate [] (world_with true)).
Proof.
  split; [reflexivity|].
  exact (proj1 (run_notifies_exactly_once true m_delegate [] (world_with true)
                  eq_refl)).
Defined.

(** C1, as stated, fails when no observer is registered: neither "exit" nor
    "fail" is sent. *)
Lemma run_without_observer_notifies_neither :
  ~ exactly_one_of_exit_fail (run_events false m_forward [] (world_with false)).
Proof. unfold exactly_one_of_exit_fail. vm_compute. discriminate. Qed.

(** C2, as amended.  When [Function::run] raises, [Method::run] raises the
    same exception with its kind and message kept: it is never swallowed,
    and the function is executed once, not retried.  In a build with
    [SYMBOLICATE_MOBILE_DEBUG_HANDLE], a backend-runtime exception leaves
    with this function's handle pushed and the symbolication of all its
    handles attached as context, a generic framework error with the
    symbolication of this function's handle attached; in a build without
    it, and for an exception of neither kind, it leaves as it came. *)
Theorem run_rethrows_annotated (sym : bool) (me : Method) (stack : Stack)
    (w : World) (e : Exception) (s' : Stack) :
  fn_run (function_ me) (self_of me :: stack) = (Raised e, s') ->
  exists e',
    (run sym me stack w).1.1 = Throws e' /\
    exn_kind e' = exn_kind e /\
    exn_msg e' = exn_msg e /\
    e' = (if sym then
            match exn_kind e with
            | BackendRuntime => backend_annotated me e
            | GenericError => error_annotated me e
            | OtherException => e
            end
          else e) /\
    count_events is_execution (run_events sym me stack w) = 1.
Proof.
  intros Hraise. unfold backend_annotated, error_annotated.
  run_cases sym me stack w; try discriminate;
    injection Hraise as <- <-; rewrite ?Hkind;
    eexists; (split; [reflexivity|]); simpl; auto.
Qed.

Lemma run_rethrows_annotated_witness :
  fn_run (function_ m_delegate) (self_of m_delegate :: []) =
    (Raised backend_error, [self_of m_delegate]) /\
  exists e',
    (run true m_delegate [] (world_with true)).1.1 = Throws e' /\
    exn_kind e' = BackendRuntime /\
    exn_msg e' = "delegate failed" /\
    e' = backend_annotated m_delegate backend_error /\
    count_events is_execution
      (run_events true m_delegate [] (world_with true)) = 1.
Proof.
  split; [reflexivity|].
  exact (run_rethrows_annotated true m_delegate [] (world_with true)
           backend_error [self_of m_delegate] eq_refl).
Defined.

(** C2, as stated, fails in a build without
    [SYMBOLICATE_MOBILE_DEBUG_HANDLE]: the backend-runtime exception leaves
    without the function's handle pushed and without context. *)
Lemma run_unsymbolicated_backend_not_annotated :
  (run false m_delegate [] (world_with true)).1.1 = Throws backend_error /\
  backend_error <> backend_annotated m_delegate backend_error.
Proof. split; [reflexivity | discriminate]. Qed.

(** C3, as amended.  In every call of [Method::run] the debug-info record
    (model name, method name) is installed once, after the "enter"
    notification - the only event that comes before it - and before the
    function is executed; it is released once, as the very last event of
    the call, so execution, symbolication and the "exit" or "fail"
    notification all happen while it is installed; and the debug-info
    stack is afterwards what it was before, whichever way the call ends. *)
Theorem debug_info_brackets_call (sym : bool) (me : Method) (stack : Stack)
    (w : World) :
  let evs := run_events sym me stack w in
  let w' := (run sym me stack w).2 in
  exists k,
    position is_installed evs = Some k /\
    evs !! k = Some (DebugInfoInstalled (debug_info_of me)) /\
    take k evs =
      (if module_observer w then
         [onEnterRunMethod (getMetadata (owner_ me))
            (rand_source w (rand_calls w)) (fn_name (function_ me))]
       else []) /\
    count_events is_enter (drop k evs) = 0 /\
    precedes is_installed is_execution evs /\
    count_events is_installed evs = 1 /\
    count_events is_released evs = 1 /\
    last evs = Some DebugInfoReleased /\
    debug_info_stack w' = debug_info_stack w /\
    trace w' = trace w ++ evs.
Proof.
  unfold precedes, debug_info_of.
  run_cases sym me stack w;
    eexists; (split; [reflexivity|]); simpl;
    repeat (split; [reflexivity|]);
    (split; [eexists _, _; simpl; repeat split; lia |]);
    repeat (split; [reflexivity|]); reflexivity.
Qed.

(** C3, as stated, fails: with an observer registered the "enter"
    notification is sent before the debug-info record is installed. *)
Lemma debug_info_not_installed_before_enter :
  ~ precedes is_installed is_enter
      (run_events true m_forward [] (world_with true)).
Proof.
  intros (i & j & Hi & Hj & Hlt).
  vm_compute in Hi. vm_compute in Hj.
  injection Hi as <-. injection Hj as <-. lia.
Qed.

(** C4.  When the function returns, [Method::operator()] has done exactly
    what [Method::run] does to the world, and gives back the value at the
    front of the stack the function left; when that stack is empty it
    fails the internal assertion instead. *)
Theorem operator_call_returns_front (sym : bool) (me : Method) (args : Stack)
    (w : World) (s' : Stack) :
  fn_run (function_ me) (self_of me :: args) = (Completed, s') ->
  (run sym me args w).1 = (Returns tt, s') /\
  operator_call sym me args w =
    (match s' with
     | [] => AssertFail "!stack.empty()"
     | front :: _ => Returns front
     end,
     (run sym me args w).2).
Proof.
  intros Hdone. unfold operator_call.
  destruct (run sym me args w) as [[r stack'] w'] eqn:Hr.
  assert (Hrs : (r, stack') = (Returns tt, s')).
  { change (r, stack') with (r, stack', w').1. rewrite <- Hr. clear Hr.
    run_cases sym me args w; try discriminate;
      injection Hdone as <-; reflexivity. }
  injection Hrs as -> ->. split; [reflexivity|].
  destruct s'; reflexivity.
Qed.

Lemma operator_call_returns_front_witness :
  (fn_run (function_ m_forward) (self_of m_forward :: []) =
     (Completed, [IInt 42]) /\
   operator_call false m_forward [] (world_with false) =
     (Returns (IInt 42), (run false m_forward [] (world_with false)).2)) /\
  (fn_run (function_ m_void) (self_of m_void :: []) = (Completed, []) /\
   operator_call false m_void [] (world_with false) =
     (AssertFail "!stack.empty()", (run false m_void [] (world_with false)).2)).
Proof.
  split; (split; [reflexivity|]).
  - exact (proj2 (operator_call_returns_front false m_forward []
                    (world_with false) [IInt 42] eq_refl)).
  - exact (proj2 (operator_call_returns_front false m_void []
                    (world_with false) [] eq_refl)).
Defined.

(** An exception of [run] leaves [operator()] as it is. *)
Lemma operator_call_propagates sym me args w e :
  (run sym me args w).1.1 = Throws e ->
  (operator_call sym me args w).1 = Throws e.
Proof.
  unfold operator_call. destruct (run sym me args w) as [[r stack'] w'].
  simpl. intros ->. reflexivity.
Qed.

Lemma find_method_in_None m fns basename :
  find_method_in m fns basename = None <->
  Forall (fun f => fn_name f <> basename) fns.
Proof.
  induction fns as [|f fns IH]; simpl.
  - split; auto.
  - destruct (String.eqb (fn_name f) basename) eqn:Hf.
    + apply String.eqb_eq in Hf. split; [discriminate|].
      intros [Hne _]%Forall_cons. contradiction.
    + apply String.eqb_neq in Hf. rewrite IH. split.
      * auto.
      * intros [_ ?]%Forall_cons. assumption.
Qed.

(** C9.  When no function of the module's unit is named "forward",
    [find_method "forward"] is empty and
    [get_forward_method_debug_info pc] fails on it for every [pc]: it
    returns no debug string. *)
Theorem forward_debug_info_needs_forward (sym : bool) (m : Module) (pc : nat) :
  Forall (fun f => fn_name f <> "forward") (methods_ (cu_ m)) ->
  find_method m "forward" = None /\
  (exists msg, get_forward_method_debug_info sym m pc = AssertFail msg) /\
  (forall s, get_forward_method_debug_info sym m pc <> Returns s).
Proof.
  intros Hnone. apply find_method_in_None with (m := m) in Hnone.
  fold (find_method m "forward") in Hnone.
  unfold get_forward_method_debug_info. rewrite Hnone. simpl.
  split; [reflexivity|]. split; [eauto | discriminate].
Qed.

Lemma forward_debug_info_needs_forward_witness :
  Forall (fun f => fn_name f <> "forward") (methods_ (cu_ headless_module)) /\
  exists msg,
    get_forward_method_debug_info true headless_module 3 = AssertFail msg.
Proof.
  assert (H : Forall (fun f => fn_name f <> "forward")
                (methods_ (cu_ headless_module))).
  { repeat constructor; discriminate. }
  split; [exact H|].
  exact (proj1 (proj2 (forward_debug_info_needs_forward true headless_module 3 H))).
Defined.

(** C10, as amended.  When a call of [Method::run] ends in an exception,
    the caller's stack is exactly what [Function::run] left of the root
    object followed by the caller's arguments: [Method::run] takes nothing
    off it while unwinding.  So when the function raises with the stack as
    it found it, the caller's stack has the root object in front and is not
    what it was before the call. *)
Theorem run_exception_leaves_function_stack (sym : bool) (me : Method)
    (stack : Stack) (w : World) (e' : Exception) :
  (run sym me stack w).1.1 = Throws e' ->
  let left := (run sym me stack w).1.2 in
  (exists e, fn_run (function_ me) (self_of me :: stack) = (Raised e, left)) /\
  ((fn_run (function_ me) (self_of me :: stack)).2 = self_of me :: stack ->
   left = self_of me :: stack /\ left <> stack).
Proof.
  intros Hthrow.
  assert (Hneq : forall (v : IValue) (l : Stack), v :: l <> l).
  { intros v l Heq. apply (f_equal length) in Heq. simpl in Heq. lia. }
  run_cases sym me stack w; try discriminate;
    (split; [eauto | intros ->; split; [reflexivity | apply Hneq]]).
Qed.

Lemma run_exception_leaves_function_stack_witness :
  (run false m_check [IInt 1] (world_with false)).1.1 = Throws plain_error /\
  (run false m_check [IInt 1] (world_with false)).1.2 =
    [self_of m_check; IInt 1] /\
  (run false m_check [IInt 1] (world_with false)).1.2 <> [IInt 1].
Proof.
  split; [reflexivity|].
  exact (proj2 (run_exception_leaves_function_stack false m_check [IInt 1]
                  (world_with false) plain_error eq_refl) eq_refl).
Defined.

(** C10, as stated, fails for a function that has moved its arguments off
    the stack before it raises: called with no arguments, the call ends in
    an exception and the caller's stack is empty, as it was before. *)
Lemma run_exception_stack_as_before :
  (run false m_consume [] (world_with false)).1.1 = Throws plain_error /\
  ~ (run false m_consume [] (world_with false)).1.2 <> [].
Proof. split; [reflexivity|]. intros H. apply H. reflexivity. Qed.

(** ** Training mode over the attribute tree *)

Section TrainingFacts.

Implicit Types (obj : Object) (l : list (string * IValue)) (on : bool).

Lemma set_train_recurse_eq ty attrs on :
  set_train_recurse (mkObject ty attrs) on =
  match find_slot "training" attrs with
  | Some slot => omap (mkObject ty) (set_train_walk on slot 0 attrs)
  | None => AssertFail training_missing
  end.
Proof.
  cbn [set_train_recurse].
  destruct (find_slot "training" attrs) as [slot|]; [|reflexivity].
  f_equal. generalize 0.
  induction attrs as [|[n v] rest IH]; intros i; [reflexivity|].
  cbn [set_train_walk]. rewrite <- IH. reflexivity.
Qed.

(** Past the "training" slot the walk is the plain loop over the slots. *)
Lemma set_train_walk_past on slot l i :
  slot < i -> set_train_walk on slot i l = set_train_slots on l.
Proof.
  revert i. induction l as [|[n v] rest IH]; intros i Hlt; [reflexivity|].
  cbn [set_train_walk set_train_slots].
  destruct (Nat.eqb_spec i slot) as [->|_]; [lia|].
  rewrite IH by lia. reflexivity.
Qed.

(** Up to it, the walk is the loop over the slots once the slot has been
    written. *)
Lemma set_train_walk_setSlot on slot l i :
  i <= slot ->
  set_train_walk on slot i l =
  set_train_slots on (set_slot_value (slot - i) (IBool on) l).
Proof.
  revert i. induction l as [|[n v] rest IH]; intros i Hle; [reflexivity|].
  cbn [set_train_walk].
  destruct (Nat.eqb_spec i slot) as [->|Hne].
  - rewrite Nat.sub_diag. unfold set_slot_value. simpl.
    rewrite set_train_walk_past by lia. reflexivity.
  - replace (slot - i) with (S (slot - S i)) by lia.
    unfold set_slot_value in *. simpl.
    rewrite (IH (S i)) by lia. reflexivity.
Qed.

(** [set_train_recurse] in the order of the source: find the slot, write
    it, then loop over the slots of the object. *)
Lemma set_train_recurse_unfold obj on :
  set_train_recurse obj on =
  match findAttributeSlot obj "training" with
  | Some slot =>
      omap (mkObject (obj_type_name obj))
           (set_train_slots on (slots_of (setSlot obj slot (IBool on))))
  | None => AssertFail "'training' attribute not found"
  end.
Proof.
  destruct obj as [ty attrs]. rewrite set_train_recurse_eq.
  unfold findAttributeSlot, slots_of, setSlot. simpl.
  destruct (find_slot "training" attrs) as [slot|]; [|reflexivity].
  rewrite set_train_walk_setSlot by lia. by rewrite Nat.sub_0_r.
Qed.

Lemma find_slot_lt name l slot :
  find_slot name l = Some slot -> slot < length l.
Proof.
  revert slot. induction l as [|[n v] rest IH]; intros slot; simpl.
  - discriminate.
  - destruct (String.eqb n name).
    + intros [= <-]. lia.
    + destruct (find_slot name rest) as [k|]; simpl; [|discriminate].
      intros [= <-]. specialize (IH k eq_refl). lia.
Qed.

(** The slot found for a name depends on the names only. *)
Lemma find_slot_names name l l' :
  l'.*1 = l.*1 -> find_slot name l' = find_slot name l.
Proof.
  revert l'. induction l as [|[n v] rest IH]; intros [|[n' v'] rest'];
    simpl; try discriminate; [reflexivity|].
  intros [= -> Hrest]. by rewrite (IH rest' Hrest).
Qed.

Lemma training_decided (L : list Object) :
  Forall has_training L \/ Exists lacks_training L.
Proof.
  induction L as [|n L [IH|IH]].
  - left. constructor.
  - unfold has_training, lacks_training.
    destruct (findAttributeSlot n "training") eqn:Hn.
    + left. constructor; [congruence | exact IH].
    + right. by constructor.
  - right. by constructor 2.
Qed.

End TrainingFacts.

Section TrainingWalk.

Implicit Types (obj : Object) (l : list (string * IValue)) (on : bool).

Lemma visited_slots_cons slot i n v l :
  visited_slots slot i ((n, v) :: l) =
  (if Nat.eqb i slot then []
   else match v with IObject o => visited o | _ => [] end)
  ++ visited_slots slot (S i) l.
Proof. reflexivity. Qed.

Lemma visited_unfold ty attrs :
  visited (mkObject ty attrs) =
  match find_slot "training" attrs with
  | Some slot => mkObject ty attrs :: visited_slots slot 0 attrs
  | None => [mkObject ty attrs]
  end.
Proof. reflexivity. Qed.

Lemma slot_nodes_cons n v l :
  slot_nodes ((n, v) :: l) =
  match v with IObject o => nodes o | _ => [] end ++ slot_nodes l.
Proof. reflexivity. Qed.

Lemma nodes_unfold ty attrs :
  nodes (mkObject ty attrs) = mkObject ty attrs :: slot_nodes attrs.
Proof. reflexivity. Qed.

(** The walk over the slots, given [train_ok] of the objects in them. *)
Lemma set_train_walk_ok on slot l :
  Forall (fun p => match p.2 with IObject o => train_ok on o | _ => True end) l ->
  forall i,
    (Forall has_training (visited_slots slot i l) ->
     exists l',
       set_train_walk on slot i l = Returns l' /\
       l'.*1 = l.*1 /\
       (forall j, i + j = slot -> j < length l ->
                  snd <$> l' !! j = Some (IBool on)) /\
       Forall (training_is on) (slot_nodes l') /\
       Forall2 (trained_as on) (visited_slots slot i l) (slot_nodes l')) /\
    (Exists lacks_training (visited_slots slot i l) ->
     set_train_walk on slot i l = AssertFail training_missing).
Proof.
  intros HF. induction HF as [|[n v] rest Hv HF IH]; intros i.
  - split.
    + intros _. exists []. repeat split; try constructor.
      intros j _ Hj. simpl in Hj. lia.
    + intros HE. inversion HE.
  - rewrite visited_slots_cons. cbn [set_train_walk].
    destruct (IH (S i)) as [IHok IHbad].
    destruct (Nat.eqb_spec i slot) as [->|Hne].
    + rewrite app_nil_l. split.
      * intros Hall. destruct (IHok Hall) as (rest' & Hw & Hn & Hj & Ht & H2).
        rewrite Hw. exists ((n, IBool on) :: rest').
        split; [reflexivity|]. split; [simpl; by f_equal|].
        split; [|split; assumption].
        intros j Hj' _. assert (j = 0) as -> by lia. reflexivity.
      * intros HE. rewrite (IHbad HE). reflexivity.
    + destruct v as [| | | | |o].
      1-5: rewrite app_nil_l; split;
        [ intros Hall; destruct (IHok Hall) as (rest' & Hw & Hn & Hj & Ht & H2);
          rewrite Hw; eexists (_ :: rest');
          split; [reflexivity|]; split; [simpl; by f_equal|];
          split; [|split; assumption];
          intros [|j] Hj' Hlt; [lia|]; simpl in Hlt;
          apply (Hj j); lia
        | intros HE; rewrite (IHbad HE); reflexivity ].
      simpl in Hv. destruct Hv as [Hvok Hvbad]. split.
      * intros Hall. apply Forall_app in Hall as [Ho Hrest].
        destruct (Hvok Ho) as (o' & Ho' & Hto & H2o).
        destruct (IHok Hrest) as (rest' & Hw & Hn & Hj & Ht & H2).
        rewrite Ho'. cbn [obind]. rewrite Hw.
        exists ((n, IObject o') :: rest').
        split; [reflexivity|]. split; [simpl; by f_equal|].
        split; [|split].
        -- intros [|j] Hj' Hlt; [lia|]. simpl in Hlt. apply (Hj j); lia.
        -- rewrite slot_nodes_cons. apply Forall_app. by split.
        -- rewrite slot_nodes_cons. by apply Forall2_app.
      * intros HE. apply Exists_app in HE as [HE|HE].
        -- rewrite (Hvbad HE). reflexivity.
        -- destruct (training_decided (visited o)) as [Ho|Ho].
           ++ destruct (Hvok Ho) as (o' & -> & _). cbn [obind].
              rewrite (IHbad HE). reflexivity.
           ++ rewrite (Hvbad Ho). reflexivity.
Qed.

Lemma set_train_recurse_ok on obj : train_ok on obj.
Proof.
  induction obj as [ty attrs IH] using Object_tree_ind.
  unfold train_ok. rewrite visited_unfold, set_train_recurse_eq.
  destruct (find_slot "training" attrs) as [slot|] eqn:Hslot.
  - destruct (set_train_walk_ok on slot attrs IH 0) as [Hok Hbad]. split.
    + intros Hall. apply Forall_cons in Hall as [_ Hall].
      destruct (Hok Hall) as (l' & Hw & Hn & Hj & Ht & H2).
      rewrite Hw. exists (mkObject ty l'). split; [reflexivity|].
      assert (Hroot : training_is on (mkObject ty l')).
      { unfold training_is, training_slot, findAttributeSlot, getSlot. simpl.
        rewrite (find_slot_names _ _ _ Hn), Hslot.
        apply Hj; [lia|]. by eapply find_slot_lt. }
      split.
      * rewrite nodes_unfold. by constructor.
      * rewrite nodes_unfold. constructor; [|exact H2].
        unfold trained_as. rewrite set_train_recurse_eq, Hslot, Hw. reflexivity.
    + intros HE. apply Exists_cons in HE as [HE|HE].
      * unfold lacks_training, findAttributeSlot in HE. simpl in HE. congruence.
      * rewrite (Hbad HE). reflexivity.
  - split.
    + intros Hall. apply Forall_cons in Hall as [Hroot _].
      unfold has_training, findAttributeSlot in Hroot. simpl in Hroot. congruence.
    + reflexivity.
Qed.

End TrainingWalk.

Lemma visited_slots_among_nodes (P : Object -> Prop) slot l :
  Forall (fun p => match p.2 with
                   | IObject o => Forall P (nodes o) -> Forall P (visited o)
                   | _ => True
                   end) l ->
  forall i, Forall P (slot_nodes l) -> Forall P (visited_slots slot i l).
Proof.
  intros HF. induction HF as [|[n v] rest Hv HF IH]; intros i Hall.
  - constructor.
  - rewrite visited_slots_cons. rewrite slot_nodes_cons in Hall.
    apply Forall_app in Hall as [Hv' Hrest]. apply Forall_app. split.
    + destruct (Nat.eqb i slot); [constructor|].
      destruct v; try constructor. simpl in Hv. by apply Hv.
    + by apply IH.
Qed.

(** What holds of every object of the tree holds of those visited. *)
Lemma visited_among_nodes (P : Object -> Prop) obj :
  Forall P (nodes obj) -> Forall P (visited obj).
Proof.
  induction obj as [ty attrs IH] using Object_tree_ind.
  rewrite nodes_unfold, visited_unfold. intros [Hroot Hrest]%Forall_cons.
  destruct (find_slot "training" attrs) as [slot|].
  - constructor; [exact Hroot|]. by apply visited_slots_among_nodes.
  - by constructor.
Qed.

Lemma is_training_of_slot m on :
  training_is on (object_ m) -> is_training m = Returns on.
Proof.
  unfold training_is, training_slot, is_training.
  destruct (findAttributeSlot (object_ m) "training") as [slot|]; [|discriminate].
  intros ->. reflexivity.
Qed.

(** C5.  When every object of a module's attribute tree has a "training"
    attribute, [train true] returns, every object of the tree it leaves
    has [true] in its "training" slot - the root and each object reached
    through object-valued slots, which are the visited objects of the
    tree before, trained, in the same order - and [is_training] then
    returns [true]. *)
Theorem train_sets_training_everywhere (m : Module) :
  Forall has_training (nodes (object_ m)) ->
  exists m',
    train m true = Returns m' /\
    Forall (training_is true) (nodes (object_ m')) /\
    Forall2 (trained_as true) (visited (object_ m)) (nodes (object_ m')) /\
    is_training m' = Returns true.
Proof.
  intros Hall. apply visited_among_nodes in Hall.
  destruct (set_train_recurse_ok true (object_ m)) as [Hok _].
  destruct (Hok Hall) as (obj' & Hobj' & Htrue & Hmade).
  exists (mkModule obj' (metadata_ m) (cu_ m) (debug_table_ m)).
  unfold train. rewrite Hobj'. split; [reflexivity|].
  split; [exact Htrue|]. split; [exact Hmade|].
  apply is_training_of_slot. simpl.
  destruct obj' as [ty attrs]. rewrite nodes_unfold in Htrue.
  by apply Forall_cons in Htrue as [? _].
Qed.

Lemma train_sets_training_everywhere_witness :
  Forall has_training (nodes (object_ sample_module)) /\
  exists m',
    train sample_module true = Returns m' /\
    Forall (training_is true) (nodes (object_ m')) /\
    Forall2 (trained_as true) (visited (object_ sample_module))
      (nodes (object_ m')) /\
    is_training m' = Returns true.
Proof.
  assert (H : Forall has_training (nodes (object_ sample_module))).
  { repeat constructor; discriminate. }
  split; [exact H|]. exact (train_sets_training_everywhere sample_module H).
Defined.

(** C6.  When an object that [train on] visits lacks the "training"
    attribute, [train on] fails the internal assertion: it neither
    returns nor throws.  [is_training], on a root without the attribute,
    returns [true]. *)
Theorem train_asserts_without_training (m : Module) (on : bool) :
  Exists lacks_training (visited (object_ m)) ->
  train m on = AssertFail training_missing /\
  (lacks_training (object_ m) -> is_training m = Returns true).
Proof.
  intros Hlack. split.
  - destruct (set_train_recurse_ok on (object_ m)) as [_ Hbad].
    unfold train. rewrite (Hbad Hlack). reflexivity.
  - unfold lacks_training, is_training. intros ->. reflexivity.
Qed.

Lemma train_asserts_without_training_witness :
  (Exists lacks_training (visited untrained_child) /\
   train (module_of untrained_child sample_cu) true =
     AssertFail training_missing) /\
  (lacks_training bare_root /\
   is_training (module_of bare_root sample_cu) = Returns true).
Proof.
  assert (H1 : Exists lacks_training
                 (visited (object_ (module_of untrained_child sample_cu)))).
  { apply Exists_cons_tl. apply Exists_cons_hd. reflexivity. }
  assert (H2 : Exists lacks_training
                 (visited (object_ (module_of bare_root sample_cu)))).
  { apply Exists_cons_hd. reflexivity. }
  split; split.
  - exact H1.
  - exact (proj1 (train_asserts_without_training _ true H1)).
  - reflexivity.
  - exact (proj2 (train_asserts_without_training
                    (module_of bare_root sample_cu) false H2) eq_refl).
Defined.

(** ** Named parameters *)

Section DottedNames.

Implicit Types (s a b : string) (p q : list string).

Lemma string_app_cons c s a : String c s +:+ a = String c (s +:+ a).
Proof. reflexivity. Qed.

Lemma string_app_nil_l a : "" +:+ a = a.
Proof. reflexivity. Qed.

Lemma string_app_assoc s a b : (s +:+ a) +:+ b = s +:+ (a +:+ b).
Proof.
  induction s as [|c s IH]; [reflexivity|].
  rewrite !string_app_cons. by rewrite IH.
Qed.

Lemma string_app_nil_r s : s +:+ "" = s.
Proof.
  induction s as [|c s IH]; [reflexivity|].
  rewrite string_app_cons. by rewrite IH.
Qed.

Lemma string_app_nonempty s a : s <> "" -> s +:+ a <> "".
Proof. destruct s; [contradiction|]. rewrite string_app_cons. discriminate. Qed.

Lemma slot_name_nested s a : s <> "" -> slot_name s a = s +:+ "." +:+ a.
Proof.
  intros Hs. unfold slot_name. destruct s as [|c s]; [contradiction|].
  cbn [String.length Nat.eqb]. apply string_app_assoc.
Qed.

Lemma dotted_cons a p : dotted (a :: p) = a +:+ sep_tail p.
Proof.
  destruct p as [|b p]; unfold dotted; simpl.
  - by rewrite string_app_nil_r.
  - reflexivity.
Qed.

Lemma name_under_nested s p : s <> "" -> name_under s p = s +:+ sep_tail p.
Proof.
  revert s. induction p as [|b p IH]; intros s Hs.
  - simpl. by rewrite string_app_nil_r.
  - change (name_under s (b :: p)) with (name_under (slot_name s b) p).
    rewrite slot_name_nested by assumption.
    rewrite IH by (by apply string_app_nonempty).
    rewrite string_app_assoc. unfold sep_tail at 2.
    rewrite dotted_cons. by rewrite string_app_assoc.
Qed.

(** Along a path of non-empty names the code builds the dotted name. *)
Lemma name_under_dotted p :
  Forall plain_name p -> name_under "" p = dotted p.
Proof.
  destruct p as [|a p]; [reflexivity|].
  intros [[Ha _] _]%Forall_cons.
  change (name_under "" (a :: p)) with (name_under a p).
  rewrite name_under_nested by assumption. by rewrite dotted_cons.
Qed.

Lemma sep_tail_starts p : starts_sep (sep_tail p).
Proof. destruct p; [by left|right]. simpl. eauto. Qed.

Lemma dot_free_cons c s :
  dot_free (String c s) = true -> c <> "."%char /\ dot_free s = true.
Proof.
  simpl. intros [Hc Hs]%andb_true_iff. split; [|exact Hs].
  intros ->. discriminate.
Qed.

(** A dot-free atom is cut off its dotted name at the first dot. *)
Lemma dot_free_split a b x y :
  dot_free a = true -> dot_free b = true -> starts_sep x -> starts_sep y ->
  a +:+ x = b +:+ y -> a = b /\ x = y.
Proof.
  revert b. induction a as [|c a IH]; intros [|d b] Ha Hb Hx Hy;
    rewrite ?string_app_nil_l, ?string_app_cons.
  - auto.
  - intros ->. apply dot_free_cons in Hb as [Hd _].
    destruct Hx as [Hx|[x' Hx]]; [discriminate|]. injection Hx as -> _. done.
  - intros <-. apply dot_free_cons in Ha as [Hc _].
    destruct Hy as [Hy|[y' Hy]]; [discriminate|]. injection Hy as -> _. done.
  - intros [= -> Heq]. apply dot_free_cons in Ha as [_ Ha].
    apply dot_free_cons in Hb as [_ Hb].
    destruct (IH b Ha Hb Hx Hy Heq) as [-> ->]. done.
Qed.

Lemma dotted_inj p q :
  Forall plain_name p -> Forall plain_name q -> dotted p = dotted q -> p = q.
Proof.
  revert q. induction p as [|a p IH]; intros [|b q] Hp Hq.
  - done.
  - apply Forall_cons in Hq as [[Hb _] _]. rewrite dotted_cons.
    destruct b; [done|discriminate].
  - apply Forall_cons in Hp as [[Ha _] _]. rewrite dotted_cons.
    destruct a; [done|discriminate].
  - apply Forall_cons in Hp as [[_ Ha] Hp].
    apply Forall_cons in Hq as [[_ Hb] Hq].
    rewrite !dotted_cons. intros Heq.
    apply dot_free_split in Heq as [-> Htail];
      [|assumption|assumption|apply sep_tail_starts|apply sep_tail_starts].
    f_equal. apply IH; [assumption|assumption|].
    destruct p, q; simpl in Htail; try done. by injection Htail.
Qed.

End DottedNames.

Section NamedParameters.

Implicit Types (obj : Object) (l : list (string * IValue))
  (params : gmap string Tensor) (p : list string) (t : Tensor).

Lemma grad_paths_unfold ty attrs :
  grad_paths (mkObject ty attrs) = flat_map slot_grad_paths attrs.
Proof. reflexivity. Qed.

Lemma foldl_map {A B C : Type} (f : A -> B -> A) (g : C -> B) x (l : list C) :
  foldl f x (map g l) = foldl (fun a b => f a (g b)) x l.
Proof. revert x. induction l as [|c l IH]; intros x; simpl; auto. Qed.

(** [slot_named_params_recurse] inserts the collected slots one after the
    other, each under the name reached along its path. *)
Lemma slot_named_params_recurse_fold obj :
  forall params parent,
    slot_named_params_recurse obj params parent =
    foldl (insert_named parent) params (grad_paths obj).
Proof.
  induction obj as [ty attrs IH] using Object_tree_ind.
  intros params parent. rewrite grad_paths_unfold.
  cbn [slot_named_params_recurse]. revert params.
  induction IH as [|[a v] rest Hv HF IHrest]; intros params; [reflexivity|].
  cbn [flat_map]. rewrite foldl_app. rewrite <- IHrest.
  destruct v as [| | | |t|o]; try reflexivity.
  - unfold slot_grad_paths. cbn [fst snd].
    destruct (requires_grad t); reflexivity.
  - simpl in Hv. unfold slot_grad_paths. cbn [fst snd].
    rewrite foldl_map. rewrite Hv. reflexivity.
Qed.

Lemma named_parameters_fold m :
  named_parameters m = foldl (insert_named "") ∅ (grad_paths (object_ m)).
Proof. apply slot_named_params_recurse_fold. Qed.

Lemma wf_names_unfold ty attrs :
  wf_names (mkObject ty attrs) <->
  wf_attrs (mkObject ty attrs) /\ Forall wf_attrs (slot_nodes attrs).
Proof. unfold wf_names. rewrite nodes_unfold. apply Forall_cons. Qed.

Lemma wf_names_child ty attrs a o :
  wf_names (mkObject ty attrs) -> In (a, IObject o) attrs -> wf_names o.
Proof.
  intros [_ Hrest]%wf_names_unfold Hin. unfold wf_names.
  apply List.Forall_forall. intros n Hn.
  rewrite List.Forall_forall in Hrest. apply Hrest.
  unfold slot_nodes. apply in_flat_map. exists (a, IObject o). auto.
Qed.

Lemma wf_attr_plain ty attrs a v :
  wf_names (mkObject ty attrs) -> In (a, v) attrs -> plain_name a.
Proof.
  intros [[_ Hplain] _]%wf_names_unfold Hin. simpl in Hplain.
  rewrite List.Forall_forall in Hplain. apply Hplain.
  change a with (a, v).1. by apply in_map.
Qed.

(** No two slots of an object share a name. *)
Lemma NoDup_fst_functional l a v v' :
  NoDup l.*1 -> In (a, v) l -> In (a, v') l -> v = v'.
Proof.
  induction l as [|[b w] l IH]; [done|].
  simpl. intros [Hnotin Hnd]%NoDup_cons [Heq|Hin] [Heq'|Hin'].
  - congruence.
  - injection Heq as -> ->. exfalso. apply Hnotin.
    apply list_elem_of_In. change a with (a, v').1. by apply in_map.
  - injection Heq' as -> ->. exfalso. apply Hnotin.
    apply list_elem_of_In. change a with (a, v).1. by apply in_map.
  - by apply IH.
Qed.

Lemma slot_grad_paths_head a v p t :
  In (p, t) (slot_grad_paths (a, v)) -> exists p', p = a :: p'.
Proof.
  unfold slot_grad_paths. cbn [fst snd]. destruct v as [| | | |t0|o]; try done.
  - destruct (requires_grad t0); [|done]. intros [[= <- _]|[]]. eauto.
  - intros ([q tq] & [= <- _] & _)%in_map_iff. eauto.
Qed.

(** In a tree with well-formed names every collected path is made of plain
    names. *)
Lemma grad_paths_plain obj :
  wf_names obj ->
  forall p t, In (p, t) (grad_paths obj) -> Forall plain_name p.
Proof.
  induction obj as [ty attrs IH] using Object_tree_ind.
  intros Hwf p t Hin. rewrite grad_paths_unfold in Hin.
  apply in_flat_map in Hin as ([a v] & Hav & Hin).
  pose proof (wf_attr_plain _ _ _ _ Hwf Hav) as Ha.
  unfold slot_grad_paths in Hin. cbn [fst snd] in Hin.
  destruct v as [| | | |t0|o]; try done.
  - destruct (requires_grad t0); [|done].
    destruct Hin as [[= <- _]|[]]. constructor; [exact Ha|constructor].
  - apply in_map_iff in Hin as ([q tq] & [= <- _] & Hq).
    constructor; [exact Ha|].
    rewrite List.Forall_forall in IH. specialize (IH _ Hav). simpl in IH.
    eapply IH; [|exact Hq]. by eapply wf_names_child.
Qed.

(** ... and leads to one slot only. *)
Lemma grad_paths_functional obj :
  wf_names obj ->
  forall p t t',
    In (p, t) (grad_paths obj) -> In (p, t') (grad_paths obj) -> t = t'.
Proof.
  induction obj as [ty attrs IH] using Object_tree_ind.
  intros Hwf p t t' Hin Hin'. rewrite grad_paths_unfold in Hin, Hin'.
  apply in_flat_map in Hin as ([a v] & Hav & Hin).
  apply in_flat_map in Hin' as ([b v'] & Hbv & Hin').
  destruct (slot_grad_paths_head _ _ _ _ Hin) as [p1 Hp1].
  destruct (slot_grad_paths_head _ _ _ _ Hin') as [p2 Hp2].
  assert (a = b) as <- by congruence.
  assert (v = v') as <-.
  { apply wf_names_unfold in Hwf as [[Hnd _] _].
    by eapply NoDup_fst_functional. }
  unfold slot_grad_paths in Hin, Hin'. cbn [fst snd] in Hin, Hin'.
  destruct v as [| | | |t0|o]; try done.
  - destruct (requires_grad t0); [|done].
    destruct Hin as [[= _ <-]|[]]. destruct Hin' as [[= _ <-]|[]]. done.
  - apply in_map_iff in Hin as ([q tq] & [= Hq <-] & Hinq).
    apply in_map_iff in Hin' as ([q' tq'] & [= Hq' <-] & Hinq').
    simpl in *. assert (q = q') as <- by congruence.
    rewrite List.Forall_forall in IH. specialize (IH _ Hav). simpl in IH.
    eapply IH; [|exact Hinq|exact Hinq']. by eapply wf_names_child.
Qed.

(** Inserting slots whose names decide their tensors: a name is bound to
    a tensor exactly when a slot of that name and tensor was inserted. *)
Lemma foldl_insert_named_lookup parent (L : list (list string * Tensor)) :
  (forall q q', In q L -> In q' L ->
                name_under parent q.1 = name_under parent q'.1 -> q.2 = q'.2) ->
  forall k t,
    foldl (insert_named parent) ∅ L !! k = Some t <->
    exists q, In q L /\ name_under parent q.1 = k /\ q.2 = t.
Proof.
  induction L as [|q0 L IH] using rev_ind; intros Hfun k t.
  - simpl. rewrite lookup_empty. split; [done|]. by intros (q & [] & _).
  - rewrite foldl_snoc. unfold insert_named at 1.
    destruct (decide (name_under parent q0.1 = k)) as [Hk|Hk].
    + rewrite Hk, lookup_insert_eq. split.
      * intros [= <-]. exists q0. split; [|done].
        apply in_or_app. right. by left.
      * intros (q & Hq & Hname & <-). f_equal. apply Hfun; [|done|congruence].
        apply in_or_app. right. by left.
    + rewrite lookup_insert_ne by done. rewrite IH.
      * split.
        -- intros (q & Hq & Hname & <-). exists q. split; [|done].
           apply in_or_app. by left.
        -- intros (q & Hq & Hname & <-). exists q. split; [|done].
           apply in_app_or in Hq as [Hq|[<-|[]]]; [done|contradiction].
      * intros q q' Hq Hq'. apply Hfun; apply in_or_app; by left.
Qed.

End NamedParameters.

(** C8, as amended.  For a module whose attribute names are well formed
    (not empty, no dot, no name twice in one object), [named_parameters]
    binds a name to a
    tensor exactly when the tree has, at some path from the root, a
    tensor-valued slot that tracks gradients, holding that tensor, and the
    name is the dotted path ([leaf] at the root, [parent.child.leaf] below
    it).  On a two-level tree in which only the leaf tensor tracks
    gradients the mapping is the single entry at key "child.leaf". *)
Theorem named_parameters_exact (m : Module) :
  wf_names (object_ m) ->
  (forall k t,
     named_parameters m !! k = Some t <->
     exists p, In (p, t) (grad_paths (object_ m)) /\ k = dotted p) /\
  (forall ty1 ty2 md cu tbl u t,
     requires_grad u = false -> requires_grad t = true ->
     named_parameters
       (mkModule
          (mkObject ty1
             [("scale", ITensor u);
              ("child", IObject (mkObject ty2 [("leaf", ITensor t)]))])
          md cu tbl) = {["child.leaf" := t]}).
Proof.
  intros Hwf. split.
  - intros k t. rewrite named_parameters_fold.
    rewrite foldl_insert_named_lookup.
    + split.
      * intros ([p t'] & Hq & Hname & Ht). simpl in *. subst t'.
        exists p. split; [exact Hq|].
        rewrite <- Hname. apply name_under_dotted.
        by eapply grad_paths_plain.
      * intros (p & Hq & ->). exists (p, t). split; [exact Hq|].
        split; [|done]. apply name_under_dotted. by eapply grad_paths_plain.
    + intros [p t1] [p' t2] Hq Hq' Hname. simpl in *.
      rewrite !name_under_dotted in Hname by (by eapply grad_paths_plain).
      apply dotted_inj in Hname; [|by eapply grad_paths_plain..].
      subst p'. by eapply grad_paths_functional.
  - intros ty1 ty2 md cu tbl u t Hu Ht. unfold named_parameters. simpl.
    rewrite Hu, Ht. reflexivity.
Qed.

Lemma named_parameters_exact_witness :
  wf_names (object_ sample_module) /\
  named_parameters sample_module !! "child.leaf" = Some weight.
Proof.
  assert (H : wf_names (object_ sample_module)).
  { repeat constructor; try discriminate;
      by apply (bool_decide_unpack _). }
  split; [exact H|].
  apply (proj1 (named_parameters_exact sample_module H)).
  exists ["child"; "leaf"]. split; [|reflexivity]. simpl. auto.
Defined.

(** C8, as stated, fails on modules whose attribute names are not plain.
    With a slot named "a.b" beside a slot "b" under "a", both tensors have
    the dotted path "a.b" and the later one replaces the earlier; under an
    empty name the slot "x" is bound at "x", not at ".x"; and of two slots
    of one name the later replaces the earlier.  In each case a tensor
    slot that tracks gradients is not in the mapping under its dotted
    path. *)
Lemma named_parameters_not_exact_without_plain_names :
  ~ (forall k t,
       named_parameters (module_of dotted_attr_tree sample_cu) !! k = Some t <->
       exists p, In (p, t) (grad_paths dotted_attr_tree) /\ k = dotted p) /\
  ~ (forall k t,
       named_parameters (module_of empty_attr_tree sample_cu) !! k = Some t <->
       exists p, In (p, t) (grad_paths empty_attr_tree) /\ k = dotted p) /\
  ~ (forall k t,
       named_parameters (module_of repeated_attr_tree sample_cu) !! k = Some t <->
       exists p, In (p, t) (grad_paths repeated_attr_tree) /\ k = dotted p).
Proof.
  split; [|split]; intros Hexact.
  - assert (Hlook : named_parameters (module_of dotted_attr_tree sample_cu)
                      !! "a.b" = Some tensor7).
    { apply Hexact. exists ["a.b"]. split; [|reflexivity]. simpl. auto. }
    vm_compute in Hlook. discriminate Hlook.
  - assert (Hlook : named_parameters (module_of empty_attr_tree sample_cu)
                      !! ".x" = Some tensor7).
    { apply Hexact. exists [""; "x"]. split; [|reflexivity]. simpl. auto. }
    vm_compute in Hlook. discriminate Hlook.
  - assert (Hlook : named_parameters (module_of repeated_attr_tree sample_cu)
                      !! "w" = Some tensor7).
    { apply Hexact. exists ["w"]. split; [|reflexivity]. simpl. auto. }
    vm_compute in Hlook. discriminate Hlook.
Qed.

(** [parameters] on the same two-level tree collects every tensor-valued
    slot, gradient-tracking or not, in depth-first order. *)
Example parameters_two_level : parameters sample_module = [buffer; weight].
Proof. reflexivity. Qed.

(** ** More on lookup: methods of a module *)

Section MethodLookup.

Implicit Types (m : Module) (fns : list Function) (name : string) (me : Method).

(** [find_method] stops at the first function of that simple name and
    binds it to the module it was asked on. *)
Lemma find_method_in_Some m fns name me :
  find_method_in m fns name = Some me <->
  exists before f after,
    fns = before ++ f :: after /\ me = mkMethod m f /\ fn_name f = name /\
    Forall (fun g => fn_name g <> name) before.
Proof.
  induction fns as [|g fns IH]; simpl.
  - split; [discriminate|].
    intros (before & f & after & Heq & _). destruct before; discriminate.
  - destruct (String.eqb (fn_name g) name) eqn:Hg.
    + apply String.eqb_eq in Hg. split.
      * intros [= <-]. exists [], g, fns. auto.
      * intros (before & f & after & Heq & -> & Hf & Hnone).
        destruct before as [|g' before]; simpl in Heq.
        -- congruence.
        -- injection Heq as <- _. apply Forall_cons in Hnone as [Hne _].
           contradiction.
    + apply String.eqb_neq in Hg. rewrite IH. split.
      * intros (before & f & after & -> & Hme & Hf & Hnone).
        exists (g :: before), f, after. auto.
      * intros (before & f & after & Heq & Hme & Hf & Hnone).
        destruct before as [|g' before]; simpl in Heq.
        -- injection Heq as -> _. contradiction.
        -- injection Heq as <- ->. apply Forall_cons in Hnone as [_ Hnone].
           eauto 8.
Qed.

Lemma find_function_in_app fns fns' qn :
  find_function_in (fns ++ fns') qn =
  match find_function_in fns qn with
  | Some f => Some f
  | None => find_function_in fns' qn
  end.
Proof.
  induction fns as [|g fns IH]; simpl; [reflexivity|].
  destruct (qn_eqb (fn_qualname g) qn); [reflexivity|exact IH].
Qed.

End MethodLookup.

(** X1.  [find_method name] returns a method exactly when it is the
    module itself bound to the first function, in registration order,
    whose simple name is [name]; it returns nothing exactly when no
    function of the unit has that name. *)
Theorem find_method_first_bound (m : Module) (name : string) :
  (forall me,
     find_method m name = Some me <->
     exists before f after,
       methods_ (cu_ m) = before ++ f :: after /\ me = mkMethod m f /\
       fn_name f = name /\ Forall (fun g => fn_name g <> name) before) /\
  (find_method m name = None <->
   Forall (fun g => fn_name g <> name) (methods_ (cu_ m))).
Proof.
  split.
  - intros me. apply find_method_in_Some.
  - apply find_method_in_None.
Qed.

(** X2.  [get_method name] returns exactly what [find_method name] finds,
    a method of this module whose function has that name; when the unit has
    no function of that name it throws a framework error whose message
    names the method, and it never fails an assertion. *)
Theorem get_method_found_or_throws (m : Module) (name : string) :
  (forall me,
     get_method m name = Returns me ->
     find_method m name = Some me /\ owner_ me = m /\
     fn_name (function_ me) = name /\ In (function_ me) (methods_ (cu_ m))) /\
  (Forall (fun g => fn_name g <> name) (methods_ (cu_ m)) ->
   exists e,
     get_method m name = Throws e /\ exn_kind e = GenericError /\
     exn_msg e = "Method '" +:+ name +:+ "' is not defined.") /\
  (forall msg, get_method m name <> AssertFail msg).
Proof.
  unfold get_method. split; [|split].
  - intros me. destruct (find_method m name) as [me'|] eqn:Hfind; [|discriminate].
    intros [= <-]. split; [reflexivity|].
    apply find_method_in_Some in Hfind
      as (before & f & after & Hfns & -> & Hname & _).
    simpl. repeat split; [assumption|].
    rewrite Hfns. apply in_or_app. right. by left.
  - intros Hnone. apply find_method_in_None with (m := m) in Hnone.
    fold (find_method m name) in Hnone. rewrite Hnone. eauto.
  - intros msg. destruct (find_method m name); discriminate.
Qed.

(** X3.  [get_methods] lists one method per registered function, in
    registration order, each bound to this module; whatever [find_method]
    finds is in the list, and every listed method is found again under its
    name, up to an earlier function of the same name. *)
Theorem get_methods_listing (m : Module) :
  map function_ (get_methods m) = methods_ (cu_ m) /\
  Forall (fun me => owner_ me = m) (get_methods m) /\
  (forall name me, find_method m name = Some me -> In me (get_methods m)) /\
  (forall me,
     In me (get_methods m) ->
     exists me',
       find_method m (fn_name (function_ me)) = Some me' /\
       In me' (get_methods m) /\
       fn_name (function_ me') = fn_name (function_ me)).
Proof.
  unfold get_methods.
  assert (Hfound : forall name me,
             find_method m name = Some me -> In me (mkMethod m <$> methods_ (cu_ m))).
  { intros name me (before & f & after & Hfns & -> & _)%find_method_in_Some.
    apply list_elem_of_In, list_elem_of_fmap. exists f. split; [reflexivity|].
    rewrite Hfns. apply list_elem_of_In, in_or_app. right. by left. }
  split; [|split; [|split]].
  - clear Hfound.
    induction (methods_ (cu_ m)) as [|f fns IH]; simpl; [reflexivity|].
    f_equal. exact IH.
  - apply Forall_fmap. apply Forall_true. reflexivity.
  - exact Hfound.
  - intros me (f & -> & Hf)%list_elem_of_In%list_elem_of_fmap. simpl.
    destruct (find_method m (fn_name f)) as [me'|] eqn:Hfind.
    + exists me'. split; [reflexivity|]. split; [by eapply Hfound|].
      by apply find_method_in_Some in Hfind as (_ & f' & _ & _ & -> & ? & _).
    + apply find_method_in_None in Hfind.
      rewrite Forall_forall in Hfind. by destruct (Hfind f Hf).
Qed.

(** X4.  Registering a function changes no lookup that already succeeds
    (the first registration of a qualified name wins); a lookup that found
    nothing finds the new function exactly when its qualified name is the
    one asked for. *)
Theorem register_then_find (cu : CompilationUnit) (fn : Function)
    (qn : QualifiedName) :
  find_function (register_function cu fn) qn =
  match find_function cu qn with
  | Some f => Some f
  | None => if qn_eqb (fn_qualname fn) qn then Some fn else None
  end.
Proof.
  unfold find_function, register_function. simpl.
  rewrite find_function_in_app. reflexivity.
Qed.

(** X5.  When the unit has a function named "forward",
    [get_forward_method_debug_info pc] returns the module-hierarchy string
    of the debug handle that the first such function gives for [pc]: the
    table's entry in a symbolicating build, the empty string otherwise. *)
Theorem forward_debug_info_of_first_forward (sym : bool) (m : Module)
    (pc : nat) (before after : list Function) (f : Function) :
  methods_ (cu_ m) = before ++ f :: after ->
  fn_name f = "forward" ->
  Forall (fun g => fn_name g <> "forward") before ->
  get_forward_method_debug_info sym m pc =
    Returns (getModuleHierarchy sym m (fn_get_debug_handle f pc)) /\
  (sym = false -> get_forward_method_debug_info sym m pc = Returns "").
Proof.
  intros Hfns Hname Hnone.
  assert (Hfind : find_method m "forward" = Some (mkMethod m f)).
  { apply find_method_in_Some. exists before, f, after. auto. }
  unfold get_forward_method_debug_info, getModuleHierarchy. rewrite Hfind.
  split; [reflexivity|]. intros ->. reflexivity.
Qed.

Lemma forward_debug_info_of_first_forward_witness :
  get_forward_method_debug_info true sample_module 3 = Returns "top(Net)".
Proof.
  exact (proj1 (forward_debug_info_of_first_forward true sample_module 3 []
                  [fn_void; fn_delegate; fn_check; fn_consume] fn_forward
                  eq_refl eq_refl (List.Forall_nil _))).
Defined.

(** ** Parameters *)

Section ParameterFacts.

Implicit Types (obj : Object) (l : list (string * IValue)) (t : Tensor).

Lemma tensor_slots_unfold ty attrs :
  tensor_slots (mkObject ty attrs) = flat_map slot_tensors attrs.
Proof. reflexivity. Qed.

(** [slot_params_recurse] only ever appends to the vector it is given. *)
Lemma slot_params_recurse_app obj :
  forall params, slot_params_recurse obj params = params ++ tensor_slots obj.
Proof.
  induction obj as [ty attrs IH] using Object_tree_ind.
  intros params. rewrite tensor_slots_unfold. cbn [slot_params_recurse].
  revert params.
  induction IH as [|[a v] rest Hv HF IHrest]; intros params.
  - simpl. by rewrite app_nil_r.
  - cbn [flat_map]. rewrite app_assoc.
    destruct v as [| | | |t|o]; unfold slot_tensors; cbn [fst snd];
      rewrite ?app_nil_r; try apply IHrest.
    simpl in Hv. rewrite <- Hv. apply IHrest.
Qed.

(** The tensors that [named_parameters] collects are, in order, the
    tensor-valued slots that track gradients. *)
Lemma grad_paths_tensors obj :
  map snd (grad_paths obj) = List.filter requires_grad (tensor_slots obj).
Proof.
  induction obj as [ty attrs IH] using Object_tree_ind.
  rewrite grad_paths_unfold, tensor_slots_unfold.
  induction IH as [|[a v] rest Hv HF IHrest]; [reflexivity|].
  cbn [flat_map]. rewrite map_app, List.filter_app, IHrest. f_equal.
  unfold slot_grad_paths, slot_tensors. cbn [fst snd].
  destruct v as [| | | |t|o]; try reflexivity.
  - simpl. destruct (requires_grad t); reflexivity.
  - simpl in Hv. rewrite <- Hv. rewrite map_map. reflexivity.
Qed.

(** A name bound after inserting slots is the name of one of them. *)
Lemma foldl_insert_named_sound parent (L : list (list string * Tensor))
    (k : string) t :
  foldl (insert_named parent) ∅ L !! k = Some t ->
  exists q, In q L /\ name_under parent q.1 = k /\ q.2 = t.
Proof.
  induction L as [|q0 L IH] using rev_ind.
  - simpl. by rewrite lookup_empty.
  - rewrite foldl_snoc. unfold insert_named at 1.
    destruct (decide (name_under parent q0.1 = k)) as [Hk|Hk].
    + rewrite Hk, lookup_insert_eq. intros [= <-]. exists q0.
      split; [|done]. apply in_or_app. right. by left.
    + rewrite lookup_insert_ne by done. intros (q & Hq & Hrest)%IH.
      exists q. split; [|done]. apply in_or_app. by left.
Qed.

(** ... and every inserted slot leaves its name bound. *)
Lemma foldl_insert_named_bound parent (L : list (list string * Tensor)) q :
  In q L -> is_Some (foldl (insert_named parent) ∅ L !! name_under parent q.1).
Proof.
  induction L as [|q0 L IH] using rev_ind; [done|].
  rewrite foldl_snoc. unfold insert_named at 1. intros Hq.
  destruct (decide (name_under parent q0.1 = name_under parent q.1)) as [Hk|Hk].
  - rewrite Hk, lookup_insert_eq. eauto.
  - rewrite lookup_insert_ne by done. apply IH.
    apply in_app_or in Hq as [Hq|[<-|[]]]; [done|contradiction].
Qed.

End ParameterFacts.

(** X6.  [parameters] returns the tensor-valued slots of the whole tree,
    depth first, once per occurrence, and [slot_params_recurse] adds them
    behind whatever the vector already holds. *)
Theorem parameters_depth_first (m : Module) :
  parameters m = tensor_slots (object_ m) /\
  forall params,
    slot_params_recurse (object_ m) params = params ++ parameters m.
Proof.
  unfold parameters. rewrite slot_params_recurse_app. simpl.
  split; [reflexivity|]. apply slot_params_recurse_app.
Qed.

(** X7.  For every module, whatever [named_parameters] binds a name to is
    a tensor that [parameters] returns and that tracks gradients; and every
    tensor of [parameters] that tracks gradients has its name bound in
    [named_parameters] (to it, or to a later slot of the same name). *)
Theorem named_parameters_among_parameters (m : Module) :
  (forall k t,
     named_parameters m !! k = Some t ->
     In t (parameters m) /\ requires_grad t = true) /\
  (forall t,
     In t (parameters m) -> requires_grad t = true ->
     exists p,
       In (p, t) (grad_paths (object_ m)) /\
       is_Some (named_parameters m !! name_under "" p)).
Proof.
  unfold parameters. rewrite slot_params_recurse_app, named_parameters_fold.
  simpl. split.
  - intros k t ([p t'] & Hq & _ & Ht)%foldl_insert_named_sound.
    simpl in Ht. subst t'. apply List.filter_In.
    rewrite <- grad_paths_tensors. change t with (p, t).2. by apply in_map.
  - intros t Ht Hgrad.
    assert (Hin : In t (map snd (grad_paths (object_ m)))).
    { rewrite grad_paths_tensors. by apply List.filter_In. }
    apply in_map_iff in Hin as ([p t'] & Heq & Hq). simpl in Heq. subst t'.
    exists p. split; [exact Hq|].
    by apply (foldl_insert_named_bound "" _ (p, t)).
Qed.

Lemma foldl_insert_named_size parent (L : list (list string * Tensor)) :
  size (foldl (insert_named parent) ∅ L) <= length L.
Proof.
  induction L as [|q0 L IH] using rev_ind; [simpl; rewrite map_size_empty; lia|].
  rewrite foldl_snoc, length_app. unfold insert_named at 1.
  rewrite map_size_insert. simpl.
  destruct (foldl (insert_named parent) ∅ L !! name_under parent q0.1);
    unfold id; lia.
Qed.

(** X16.  [named_parameters] never has more entries than [parameters] has
    tensors that track gradients; in particular it is empty when no tensor
    of the tree does. *)
Theorem named_parameters_size (m : Module) :
  size (named_parameters m) <=
  length (List.filter requires_grad (parameters m)) /\
  (List.filter requires_grad (parameters m) = [] -> named_parameters m = ∅).
Proof.
  assert (Hle : size (named_parameters m) <=
                length (List.filter requires_grad (parameters m))).
  { unfold parameters. rewrite slot_params_recurse_app, named_parameters_fold.
    simpl. rewrite <- grad_paths_tensors, length_map.
    apply foldl_insert_named_size. }
  split; [exact Hle|]. intros Hnone. rewrite Hnone in Hle. simpl in Hle.
  apply map_size_empty_inv. lia.
Qed.

(** ** More on training mode *)

Section TrainingLaws.

Implicit Types (obj : Object) (l : list (string * IValue)) (on : bool).

Lemma omap_Returns_inv {A B : Type} (f : A -> B) (m : Outcome A) (b : B) :
  omap f m = Returns b -> exists a, m = Returns a /\ b = f a.
Proof. destruct m; simpl; [|discriminate..]. intros [= <-]. eauto. Qed.

Lemma obind_Returns_inv {A B : Type} (m : Outcome A) (f : A -> Outcome B) b :
  obind m f = Returns b -> exists a, m = Returns a /\ f a = Returns b.
Proof. destruct m; simpl; [|discriminate..]. eauto. Qed.

Lemma set_train_recurse_Returns_inv ty attrs on obj' :
  set_train_recurse (mkObject ty attrs) on = Returns obj' ->
  exists slot l',
    find_slot "training" attrs = Some slot /\
    set_train_walk on slot 0 attrs = Returns l' /\ obj' = mkObject ty l'.
Proof.
  rewrite set_train_recurse_eq.
  destruct (find_slot "training" attrs) as [slot|]; [|discriminate].
  intros (l' & Hw & ->)%omap_Returns_inv. eauto.
Qed.

(** One step of the walk that returns, taken apart. *)
Lemma set_train_walk_cons_inv on slot i n v rest l' :
  set_train_walk on slot i ((n, v) :: rest) = Returns l' ->
  exists v' rest',
    l' = (n, v') :: rest' /\
    set_train_walk on slot (S i) rest = Returns rest' /\
    (if Nat.eqb i slot then v' = IBool on
     else match v with
          | IObject o =>
              exists o', set_train_recurse o on = Returns o' /\ v' = IObject o'
          | _ => v' = v
          end).
Proof.
  cbn [set_train_walk]. destruct (Nat.eqb i slot).
  - intros (rest' & Hw & ->)%omap_Returns_inv. eauto.
  - destruct v as [| | | | |o];
      try (intros (rest' & Hw & ->)%omap_Returns_inv; eauto).
    intros (o' & Ho & (rest' & Hw & ->)%omap_Returns_inv)%obind_Returns_inv.
    eauto 8.
Qed.

Lemma set_train_walk_names on slot l :
  forall i l', set_train_walk on slot i l = Returns l' -> l'.*1 = l.*1.
Proof.
  induction l as [|[n v] rest IH]; intros i l'.
  - intros [= <-]. reflexivity.
  - intros (v' & rest' & -> & Hw & _)%set_train_walk_cons_inv.
    simpl. f_equal. by eapply IH.
Qed.

(** What an earlier [set_train_recurse] wrote does not matter to a later
    one. *)
Lemma set_train_walk_again on1 on2 slot l :
  Forall (fun p => match p.2 with
                   | IObject o =>
                       forall o', set_train_recurse o on1 = Returns o' ->
                                  set_train_recurse o' on2 =
                                  set_train_recurse o on2
                   | _ => True
                   end) l ->
  forall i l',
    set_train_walk on1 slot i l = Returns l' ->
    set_train_walk on2 slot i l' = set_train_walk on2 slot i l.
Proof.
  intros HF. induction HF as [|[n v] rest Hv HF IH]; intros i l'.
  - intros [= <-]. reflexivity.
  - intros (v' & rest' & -> & Hw & Hv')%set_train_walk_cons_inv.
    cbn [set_train_walk]. rewrite (IH _ _ Hw).
    destruct (Nat.eqb i slot); [reflexivity|].
    destruct v as [| | | | |o]; try (subst v'; reflexivity).
    destruct Hv' as (o' & Ho & ->). simpl in Hv. by rewrite (Hv _ Ho).
Qed.

Lemma set_train_recurse_again on1 on2 obj :
  forall obj', set_train_recurse obj on1 = Returns obj' ->
               set_train_recurse obj' on2 = set_train_recurse obj on2.
Proof.
  induction obj as [ty attrs IH] using Object_tree_ind.
  intros obj' (slot & l' & Hslot & Hw & ->)%set_train_recurse_Returns_inv.
  rewrite !set_train_recurse_eq.
  rewrite (find_slot_names _ _ _ (set_train_walk_names _ _ _ _ _ Hw)), Hslot.
  by rewrite (set_train_walk_again on1 on2 slot attrs IH _ _ Hw).
Qed.

(** Writing booleans over booleans changes no tensor slot. *)
Lemma set_train_walk_keeps on slot l :
  Forall (fun p => match p.2 with
                   | IObject o =>
                       Forall training_is_bool (nodes o) ->
                       forall o', set_train_recurse o on = Returns o' ->
                                  tensor_slots o' = tensor_slots o /\
                                  grad_paths o' = grad_paths o
                   | _ => True
                   end) l ->
  forall i l',
    Forall training_is_bool (slot_nodes l) ->
    (forall j p, i + j = slot -> l !! j = Some p -> exists b, p.2 = IBool b) ->
    set_train_walk on slot i l = Returns l' ->
    flat_map slot_tensors l' = flat_map slot_tensors l /\
    flat_map slot_grad_paths l' = flat_map slot_grad_paths l.
Proof.
  intros HF. induction HF as [|[n v] rest Hv HF IH]; intros i l' Hbool Hslot.
  - intros [= <-]. done.
  - intros (v' & rest' & -> & Hw & Hv')%set_train_walk_cons_inv.
    rewrite slot_nodes_cons in Hbool. apply Forall_app in Hbool as [Hbv Hbrest].
    assert (Hrest : flat_map slot_tensors rest' = flat_map slot_tensors rest /\
                    flat_map slot_grad_paths rest' = flat_map slot_grad_paths rest).
    { apply (IH (S i)); [assumption| |assumption].
      intros j p Hj Hp. apply (Hslot (S j) p); [lia|exact Hp]. }
    destruct Hrest as [Ht Hg]. cbn [flat_map]. rewrite Ht, Hg.
    assert (Hhead : slot_tensors (n, v') = slot_tensors (n, v) /\
                    slot_grad_paths (n, v') = slot_grad_paths (n, v));
      [|by destruct Hhead as [-> ->]].
    destruct (Nat.eqb_spec i slot) as [->|Hne].
    + destruct (Hslot 0 (n, v)) as [b Hb]; [lia|reflexivity|].
      simpl in Hb. subst v v'. done.
    + destruct v as [| | | | |o]; try (subst v'; done).
      destruct Hv' as (o' & Ho & ->). simpl in Hv.
      destruct (Hv Hbv _ Ho) as [Hto Hgo].
      unfold slot_tensors, slot_grad_paths. cbn [fst snd]. by rewrite Hto, Hgo.
Qed.

Lemma set_train_recurse_keeps on obj :
  Forall training_is_bool (nodes obj) ->
  forall obj', set_train_recurse obj on = Returns obj' ->
               tensor_slots obj' = tensor_slots obj /\
               grad_paths obj' = grad_paths obj.
Proof.
  induction obj as [ty attrs IH] using Object_tree_ind.
  rewrite nodes_unfold. intros [[b Hb] Hrest]%Forall_cons.
  intros obj' (slot & l' & Hfound & Hw & ->)%set_train_recurse_Returns_inv.
  rewrite !tensor_slots_unfold, !grad_paths_unfold.
  apply (set_train_walk_keeps on slot attrs IH 0); [assumption| |assumption].
  intros j p Hj Hp. exists b.
  unfold training_slot, findAttributeSlot, getSlot in Hb. simpl in Hb.
  rewrite Hfound in Hb. simpl in Hj. subst j. rewrite Hp in Hb.
  simpl in Hb. congruence.
Qed.

Lemma training_is_bool_has obj : training_is_bool obj -> has_training obj.
Proof.
  unfold training_is_bool, training_slot, has_training.
  intros [b Hb]. destruct (findAttributeSlot obj "training"); [done|discriminate].
Qed.

End TrainingLaws.

(** X8.  [train on] never throws: it returns exactly when every object it
    visits has the "training" attribute, whatever [on] is, and otherwise
    fails the assertion about the missing attribute.  When it returns,
    [is_training] of the module it leaves returns [on], and the module's
    unit, metadata and debug table are the ones it had. *)
Theorem train_returns_iff (m : Module) (on : bool) :
  (forall e, train m on <> Throws e) /\
  (Forall has_training (visited (object_ m)) <->
   exists m', train m on = Returns m') /\
  (forall m',
     train m on = Returns m' ->
     is_training m' = Returns on /\ cu_ m' = cu_ m /\
     metadata_ m' = metadata_ m /\ debug_table_ m' = debug_table_ m) /\
  (forall msg,
     train m on = AssertFail msg ->
     msg = training_missing /\ Exists lacks_training (visited (object_ m))).
Proof.
  destruct (set_train_recurse_ok on (object_ m)) as [Hok Hbad].
  unfold train.
  destruct (training_decided (visited (object_ m))) as [Hall|Hex].
  - destruct (Hok Hall) as (obj' & -> & Htrue & _). simpl.
    split; [discriminate|]. split; [split; eauto|].
    split; [|discriminate].
    intros m' [= <-]. simpl. split; [|done].
    apply is_training_of_slot. simpl.
    destruct obj' as [ty attrs]. rewrite nodes_unfold in Htrue.
    by apply Forall_cons in Htrue as [? _].
  - rewrite (Hbad Hex). simpl.
    split; [discriminate|]. split; [|split; [discriminate|]].
    + split; [|by intros [m' ?]].
      intros Hall. exfalso.
      apply Exists_exists in Hex as (n & Hn & Hlack).
      rewrite Forall_forall in Hall. by apply (Hall n Hn).
    + intros msg [= <-]. done.
Qed.

(** X9.  After a [train] that returned, a second [train] gives what it
    would have given on the module before: the last call decides, and
    repeating a call changes nothing. *)
Theorem train_last_wins (m : Module) (on1 on2 : bool) (m1 : Module) :
  train m on1 = Returns m1 ->
  train m1 on2 = train m on2 /\ train m1 on1 = Returns m1.
Proof.
  unfold train. intros (obj1 & Hobj1 & ->)%omap_Returns_inv. simpl.
  rewrite !(set_train_recurse_again on1 _ _ _ Hobj1).
  split; [reflexivity|]. rewrite Hobj1. reflexivity.
Qed.

Lemma train_last_wins_witness :
  exists m1,
    train sample_module true = Returns m1 /\
    train m1 false = train sample_module false /\
    train m1 true = Returns m1.
Proof.
  exists (match train sample_module true with
          | Returns m' => m'
          | _ => sample_module
          end).
  split; [reflexivity|].
  exact (train_last_wins sample_module true false _ eq_refl).
Defined.

(** X10.  On a tree in which every object's "training" slot holds a
    boolean, [train on] returns and touches nothing else that the module
    reports: [parameters] and [named_parameters] are afterwards what they
    were. *)
Theorem train_keeps_parameters (m : Module) (on : bool) :
  Forall training_is_bool (nodes (object_ m)) ->
  exists m',
    train m on = Returns m' /\
    parameters m' = parameters m /\
    named_parameters m' = named_parameters m.
Proof.
  intros Hbool.
  assert (Hall : Forall has_training (visited (object_ m))).
  { apply visited_among_nodes.
    eapply Forall_impl; [exact Hbool|]. apply training_is_bool_has. }
  destruct (set_train_recurse_ok on (object_ m)) as [Hok _].
  destruct (Hok Hall) as (obj' & Hobj' & _).
  destruct (set_train_recurse_keeps on _ Hbool _ Hobj') as [Ht Hg].
  unfold train. rewrite Hobj'. eexists. split; [reflexivity|].
  unfold parameters. rewrite !named_parameters_fold, !slot_params_recurse_app.
  simpl. by rewrite Ht, Hg.
Qed.

Lemma train_keeps_parameters_witness :
  Forall training_is_bool (nodes (object_ sample_module)) /\
  exists m',
    train sample_module true = Returns m' /\
    parameters m' = parameters sample_module /\
    named_parameters m' = named_parameters sample_module.
Proof.
  assert (H : Forall training_is_bool (nodes (object_ sample_module))).
  { constructor; [by exists false|]. constructor; [by exists false|]. constructor. }
  split; [exact H|]. exact (train_keeps_parameters sample_module true H).
Defined.

(** ** More on Method::run *)

(** As [run_cases], keeping what is known of each message. *)
Ltac run_cases_eqn sym me stack w :=
  let obs := fresh "obs" in
  destruct w as [obs ? ? ? ?];
  run_reduce;
  let e := fresh "e" in
  let s' := fresh "s'" in
  let Hrun := fresh "Hrun" in
  let Hkind := fresh "Hkind" in
  destruct (fn_run (function_ me) (IObject (_ivalue (owner_ me)) :: stack))
    as [[|e] s'] eqn:Hrun;
  [| destruct (exn_kind e) eqn:Hkind];
  destruct sym; destruct obs; run_reduce;
  repeat match goal with
         | |- context [string_empty ?s] =>
             let Hs := fresh "Hempty" in
             destruct (string_empty s) eqn:Hs; run_reduce
         end;
  rewrite <- ?app_assoc, ?drop_app_length;
  cbn [app count_events position is_enter is_exit is_fail is_installed
       is_released is_execution Nat.add fmap option_fmap option_map].

Section RunBookkeeping.

Implicit Types (sym : bool) (me : Method) (stack : Stack) (w : World).

Lemma string_empty_false s : string_empty s = false <-> s <> "".
Proof. destruct s; simpl; split; (done || discriminate). Qed.

Lemma count_events_app P evs evs' :
  count_events P (evs ++ evs') = count_events P evs + count_events P evs'.
Proof. induction evs as [|ev evs IH]; simpl; [reflexivity|]. rewrite IH. lia. Qed.

(** What one call adds, counted, and what it leaves of the world. *)
Lemma run_step_counts sym me stack w :
  let evs := run_events sym me stack w in
  let w' := (run sym me stack w).2 in
  let b := if module_observer w then 1 else 0 in
  (count_events is_enter evs = b /\
   count_events is_exit evs + count_events is_fail evs = b /\
   count_events is_installed evs = 1 /\
   count_events is_released evs = 1 /\
   count_events is_execution evs = 1) /\
  (module_observer w' = module_observer w /\
   rand_source w' = rand_source w /\
   rand_calls w' = S (rand_calls w) /\
   debug_info_stack w' = debug_info_stack w).
Proof. run_cases sym me stack w; repeat split. Qed.

Lemma run_all_cons sym c calls w :
  run_all sym (c :: calls) w = run_all sym calls (run sym c.1 c.2 w).2.
Proof. reflexivity. Qed.

End RunBookkeeping.

(** X11.  A call of [Method::run] draws exactly one number from
    [std::rand], observer or not, leaves the observer registration alone,
    and every notification it sends carries that number as instance key. *)
Theorem run_draws_one_key (sym : bool) (me : Method) (stack : Stack)
    (w : World) :
  let w' := (run sym me stack w).2 in
  module_observer w' = module_observer w /\
  rand_source w' = rand_source w /\
  rand_calls w' = S (rand_calls w) /\
  Forall (fun ev => event_key ev = None \/
                    event_key ev = Some (rand_source w (rand_calls w)))
         (run_events sym me stack w).
Proof.
  run_cases sym me stack w; repeat (split; [reflexivity|]);
    repeat (apply List.Forall_cons;
            [first [left; reflexivity | right; reflexivity]|]);
    apply List.Forall_nil.
Qed.


(** X13.  With an observer registered, when the function raises a
    backend-runtime exception or a generic framework error the "fail"
    notification carries the text of the exception as it is rethrown,
    context included, when that text is not empty; when it raises an
    exception of neither kind in a build without symbolication, it
    carries "Unknown exception". *)
Theorem run_fail_message_of_exception (sym : bool) (me : Method)
    (stack : Stack) (w : World) (e : Exception) (s' : Stack) :
  module_observer w = true ->
  fn_run (function_ me) (self_of me :: stack) = (Raised e, s') ->
  exists e',
    (run sym me stack w).1.1 = Throws e' /\
    match exn_kind e with
    | OtherException =>
        sym = false ->
        In (onFailRunMethod (rand_source w (rand_calls w)) "Unknown exception")
           (run_events sym me stack w)
    | _ =>
        what e' <> "" ->
        In (onFailRunMethod (rand_source w (rand_calls w)) (what e'))
           (run_events sym me stack w)
    end.
Proof.
  intros Hobs Hraise.
  run_cases_eqn sym me stack w; try discriminate;
    injection Hraise as <- <-; rewrite ?Hkind;
    eexists; (split; [reflexivity|]);
    first [ intros Hsym; discriminate Hsym
          | intros Hne; apply string_empty_false in Hne; congruence
          | intros _; simpl; auto 8 ].
Qed.

Lemma run_fail_message_of_exception_witness :
  module_observer (world_with true) = true /\
  fn_run (function_ m_check) (self_of m_check :: []) =
    (Raised plain_error, [self_of m_check]) /\
  exists e',
    (run true m_check [] (world_with true)).1.1 = Throws e' /\
    (what e' <> "" ->
     In (onFailRunMethod 100 (what e'))
        (run_events true m_check [] (world_with true))).
Proof.
  split; [reflexivity|]. split; [reflexivity|].
  exact (run_fail_message_of_exception true m_check [] (world_with true)
           plain_error [self_of m_check] eq_refl eq_refl).
Defined.

(** X14.  Whatever the calls of a sequence do - return or raise - each
    one installs and releases the debug-info record once, executes its
    function once and draws one instance key, and the debug-info stack
    ends as it began; with an observer registered there are as many
    "enter" notifications as calls and as many "exit" or "fail"
    notifications as calls, without one there are none. *)
Theorem run_all_counts (sym : bool) (calls : list (Method * Stack)) (w : World) :
  let evs := run_all_events sym calls w in
  let w' := run_all sym calls w in
  let n := if module_observer w then length calls else 0 in
  trace w' = trace w ++ evs /\
  count_events is_enter evs = n /\
  count_events is_exit evs + count_events is_fail evs = n /\
  count_events is_installed evs = length calls /\
  count_events is_released evs = length calls /\
  count_events is_execution evs = length calls /\
  rand_calls w' = rand_calls w + length calls /\
  debug_info_stack w' = debug_info_stack w.
Proof.
  revert w. induction calls as [|c calls IH]; intros w.
  - simpl. rewrite app_nil_r. destruct (module_observer w); repeat split; lia.
  - cbn zeta in *. rewrite run_all_cons. cbn [run_all_events length].
    destruct (run_step_counts sym c.1 c.2 w)
      as [(Hen & Hxf & Hin & Hre & Hex) (Hobs & _ & Hrand & Hdbg)].
    specialize (IH (run sym c.1 c.2 w).2).
    destruct IH as (Htr & Hen' & Hxf' & Hin' & Hre' & Hex' & Hrand' & Hdbg').
    rewrite Hobs in Hen', Hxf'. rewrite !count_events_app.
    split.
    { rewrite Htr, run_trace_extends. by rewrite app_assoc. }
    destruct (module_observer w); repeat split; lia || congruence.
Qed.

(** X15.  When the function raises, [Method::operator()] throws the
    exception that [Method::run] rethrows, with its kind and message, and
    leaves the world as [run] leaves it; it does so also when the stack is
    left empty, in which case no assertion is reached. *)
Theorem operator_call_rethrows (sym : bool) (me : Method) (args : Stack)
    (w : World) (e : Exception) (s' : Stack) :
  fn_run (function_ me) (self_of me :: args) = (Raised e, s') ->
  exists e',
    operator_call sym me args w = (Throws e', (run sym me args w).2) /\
    (run sym me args w).1.1 = Throws e' /\
    exn_kind e' = exn_kind e /\ exn_msg e' = exn_msg e.
Proof.
  intros Hraise. unfold operator_call.
  run_cases sym me args w; try discriminate;
    injection Hraise as <- <-;
    eexists; (split; [reflexivity|]); (split; [reflexivity|]);
    simpl; auto.
Qed.

Lemma operator_call_rethrows_witness :
  fn_run (function_ m_consume) (self_of m_consume :: []) =
    (Raised plain_error, []) /\
  exists e',
    operator_call false m_consume [] (world_with false) =
      (Throws e', (run false m_consume [] (world_with false)).2) /\
    (run false m_consume [] (world_with false)).1.1 = Throws e' /\
    exn_kind e' = GenericError /\ exn_msg e' = "shape mismatch".
Proof.
  split; [reflexivity|].
  exact (operator_call_rethrows false m_consume [] (world_with false)
           plain_error [] eq_refl).
Defined.
